(** * The comment stripper of [demo/uncomment.c]

    [uncomment] is a finite-state machine written with the macros of
    [fsm.h]: every [fsmstate(s)] block is the code at the label
    [fsm_state_s], [fsmgoto(s)] is [goto fsm_state_s] and [fsmexit] is
    [goto fsm_exit].  The embedding keeps this shape: a configuration
    holds the label control is at, the [int c] shared by all the blocks
    and the two streams; [step] runs one block from its label to the
    [goto] that leaves it. *)

From Stdlib Require Import ZArith List Ascii String Lia Bool DecimalString.
Import ListNotations.
Local Open Scope Z_scope.

(** ** Characters and streams *)

(** [EOF] of <stdio.h>. *)
Definition EOF : Z := -1.

(** The value of a character constant such as ['/'], and of a character
    that [fgetc] delivers: an [unsigned char] converted to [int]. *)
Definition chr (a : ascii) : Z := Z.of_N (N_of_ascii a).

(** [fputc] converts its [int] argument to [unsigned char]. *)
Definition to_uchar (c : Z) : ascii := ascii_of_N (Z.to_N (c mod 256)).

(** A [FILE *] open for reading is the list of characters still to be
    read; one open for writing is the list of characters written so far. *)
Definition fgetc (inp : list ascii) : Z * list ascii :=
  match inp with
  | [] => (EOF, [])
  | a :: rest => (chr a, rest)
  end.

Definition fputc (c : Z) (out : list ascii) : list ascii :=
  out ++ [to_uchar c].

(** The character constants the source compares with. *)
Definition slash_chr : ascii := "/"%char.
Definition star_chr : ascii := "*"%char.
Definition dquote : ascii := "034"%char.
Definition squote : ascii := "'"%char.
Definition backslash : ascii := "\"%char.
Definition newline : ascii := "010"%char.

(** ** Labels and configurations *)

(** The labels the macros of [fsm.h] generate in [uncomment]. *)
Inductive label : Set :=
| fsm_state_START
| fsm_state_code
| fsm_state_code_char
| fsm_state_slash
| fsm_state_string
| fsm_state_literal
| fsm_state_escaped
| fsm_state_line_comment
| fsm_state_block_comment
| fsm_state_star
| fsm_exit.

Definition label_eq_dec (x y : label) : {x = y} + {x <> y}.
Proof. decide equality. Defined.

Record config : Set := Config {
  pc : label;          (* the label control is at *)
  c : Z;               (* int c *)
  inp : list ascii;    (* FILE *in: what is left to read *)
  out : list ascii     (* FILE *out: what has been written *)
}.

(** ** One block of the machine *)

(** [step] runs the block at the current label.  At [fsm_exit] the
    function has returned: nothing happens any more. *)
Definition step (s : config) : config :=
  match pc s with
  | fsm_state_START =>
      Config fsm_state_code (c s) (inp s) (out s)
  | fsm_state_code =>
      let (c', in') := fgetc (inp s) in
      if c' =? EOF then Config fsm_exit c' in' (out s)
      else if c' =? chr slash_chr then Config fsm_state_slash c' in' (out s)
      else Config fsm_state_code_char c' in' (out s)
  | fsm_state_code_char =>
      let out' := fputc (c s) (out s) in
      if c s =? chr dquote then Config fsm_state_string (c s) (inp s) out'
      else if c s =? chr squote then Config fsm_state_literal (c s) (inp s) out'
      else Config fsm_state_code (c s) (inp s) out'
  | fsm_state_slash =>
      let (c', in') := fgetc (inp s) in
      if c' =? EOF then Config fsm_exit c' in' (out s)
      else if c' =? chr slash_chr then Config fsm_state_line_comment c' in' (out s)
      else if c' =? chr star_chr then Config fsm_state_block_comment c' in' (out s)
      else Config fsm_state_code_char c' in' (fputc (chr slash_chr) (out s))
  | fsm_state_string =>
      let (c', in') := fgetc (inp s) in
      if c' =? EOF then Config fsm_exit c' in' (out s)
      else if c' =? chr backslash then Config fsm_state_escaped c' in' (out s)
      else
        let out' := fputc c' (out s) in
        if c' =? chr dquote then Config fsm_state_code c' in' out'
        else Config fsm_state_string c' in' out'
  | fsm_state_literal =>
      let (c', in') := fgetc (inp s) in
      if c' =? EOF then Config fsm_exit c' in' (out s)
      else if c' =? chr backslash then Config fsm_state_escaped c' in' (out s)
      else
        let out' := fputc c' (out s) in
        if c' =? chr squote then Config fsm_state_code c' in' out'
        else Config fsm_state_literal c' in' out'
  | fsm_state_escaped =>
      let quote := c s in
      let out1 := fputc quote (out s) in
      let (c', in') := fgetc (inp s) in
      if c' =? EOF then Config fsm_exit c' in' out1
      else
        let out2 := fputc c' out1 in
        if quote =? chr dquote then Config fsm_state_string c' in' out2
        else Config fsm_state_literal c' in' out2
  | fsm_state_line_comment =>
      let (c', in') := fgetc (inp s) in
      if c' =? EOF then Config fsm_exit c' in' (out s)
      else if c' =? chr newline then Config fsm_state_code c' in' (out s)
      else Config fsm_state_line_comment c' in' (out s)
  | fsm_state_block_comment =>
      let (c', in') := fgetc (inp s) in
      if c' =? EOF then Config fsm_exit c' in' (out s)
      else if c' =? chr star_chr then Config fsm_state_star c' in' (out s)
      else Config fsm_state_block_comment c' in' (out s)
  | fsm_state_star =>
      let (c', in') := fgetc (inp s) in
      if c' =? EOF then Config fsm_exit c' in' (out s)
      else if c' =? chr slash_chr then Config fsm_state_code c' in' (out s)
      else Config fsm_state_block_comment c' in' (out s)
  | fsm_exit => s
  end.

(** ** Running the machine *)

(** [run fuel s] follows the [goto]s from [s] until [fsm_exit], where it
    delivers what was written; [None] when [fuel] blocks were not enough. *)
Fixpoint run (fuel : nat) (s : config) : option (list ascii) :=
  if label_eq_dec (pc s) fsm_exit then Some (out s)
  else match fuel with
       | O => None
       | S fuel' => run fuel' (step s)
       end.

(** [int c] is declared without an initial value; [c0] stands for whatever
    it holds when control reaches [fsm_state_START]. *)
Definition init_from (c0 : Z) (input : list ascii) : config :=
  Config fsm_state_START c0 input [].

Definition init (input : list ascii) : config := init_from 0 input.

(** Every block that reaches another block has either read a character or
    is one of the two blocks that read nothing and lead to a reading one,
    so twice the length of the input, and two more, always suffice. *)
Definition blocks_bound (input : list ascii) : nat :=
  (2 * List.length input + 2)%nat.

Definition uncomment (input : list ascii) : option (list ascii) :=
  run (blocks_bound input) (init input).

(** The same on strings. *)
Definition strip (s : string) : option string :=
  option_map string_of_list_ascii (uncomment (list_ascii_of_string s)).

(** ** Runs as relations *)

Definition steps (n : nat) (s : config) : config := Nat.iter n step s.

(** [reach s s']: control gets from [s] to [s'] by running blocks. *)
Definition reach (s s' : config) : Prop := exists n, steps n s = s'.

(** [exec s o]: started at [s], the function returns having written [o]. *)
Definition exec (s : config) (o : list ascii) : Prop :=
  exists s', reach s s' /\ pc s' = fsm_exit /\ out s' = o.

(** Twice the characters left, plus one for a block still to run, plus
    one more for the two blocks that do not read. *)
Definition measure (s : config) : nat :=
  match pc s with
  | fsm_exit => 0
  | fsm_state_START | fsm_state_code_char => 2 * List.length (inp s) + 2
  | _ => 2 * List.length (inp s) + 1
  end.

(** Where [fsm_state_code_char] goes after writing the character. *)
Definition dispatch (a : ascii) : label :=
  if Ascii.eqb a dquote then fsm_state_string
  else if Ascii.eqb a squote then fsm_state_literal
  else fsm_state_code.

(** ** Inputs of the examples *)

Definition ex_line_comment : list ascii :=
  list_ascii_of_string "a//comment" ++ newline :: list_ascii_of_string "b".

Definition ex_escaped_quote : list ascii :=
  list_ascii_of_string "x = " ++ dquote :: "a"%char :: backslash :: dquote
    :: "b"%char :: dquote :: list_ascii_of_string "; // c".

Definition ex_escaped_quote_stripped : list ascii :=
  list_ascii_of_string "x = " ++ dquote :: "a"%char :: backslash :: dquote
    :: "b"%char :: dquote :: list_ascii_of_string "; ".

Definition ex_inert_markers : list ascii :=
  list_ascii_of_string "s = " ++ dquote
    :: list_ascii_of_string "/* not a comment */" ++ dquote
    :: list_ascii_of_string ";".

Definition ex_escaped_backslash : list ascii :=
  dquote :: backslash :: backslash :: dquote :: list_ascii_of_string " /*c*/".

Definition ex_escaped_squote : list ascii :=
  list_ascii_of_string "c = '\''; // x".

(** A string literal that holds an escaped double quote, a single quote
    and the text of a block comment. *)
Definition ex_escape_then_comment : list ascii :=
  dquote :: backslash :: dquote :: squote
    :: list_ascii_of_string "/*x*/" ++ [dquote].

(** ** Notions used in the statements *)

(** Text without a slash and without a quote of either kind. *)
Definition plain (s : list ascii) : Prop :=
  ~ In slash_chr s /\ ~ In dquote s /\ ~ In squote s.

(** A test for [~ In a s] that computes. *)
Definition absent (a : ascii) (s : list ascii) : bool :=
  forallb (fun b => negb (Ascii.eqb b a)) s.

(** The labels whose block starts by reading a character. *)
Definition reading_labels : list label :=
  [fsm_state_code; fsm_state_slash; fsm_state_string; fsm_state_literal;
   fsm_state_line_comment; fsm_state_block_comment; fsm_state_star].

(** The same configuration with more input behind what is left. *)
Definition extend (t : list ascii) (s : config) : config :=
  Config (pc s) (c s) (inp s ++ t) (out s).

(** [subseq l1 l2]: [l1] is [l2] with some characters left out. *)
Inductive subseq : list ascii -> list ascii -> Prop :=
| subseq_nil : subseq [] []
| subseq_keep a l1 l2 : subseq l1 l2 -> subseq (a :: l1) (a :: l2)
| subseq_drop a l1 l2 : subseq l1 l2 -> subseq l1 (a :: l2).

(** What a block holds back for the next one to write: the character in
    [c] at [fsm_state_code_char] and [fsm_state_escaped], the slash at
    [fsm_state_slash]. *)
Definition pending (s : config) : list ascii :=
  match pc s with
  | fsm_state_code_char | fsm_state_escaped => [to_uchar (c s)]
  | fsm_state_slash => [slash_chr]
  | _ => []
  end.

(** What has been written, and what is held back, is what has been read,
    with some characters left out. *)
Definition copies (input : list ascii) (s : config) : Prop :=
  exists consumed,
    input = consumed ++ inp s /\ subseq (out s ++ pending s) consumed.

Definition ex_trailing_slash : list ascii := list_ascii_of_string "a/".

(** The labels of the blocks that run inside a comment. *)
Definition comment_labels : list label :=
  [fsm_state_line_comment; fsm_state_block_comment; fsm_state_star].

(** The labels of the blocks that run inside a literal. *)
Definition literal_labels : list label :=
  [fsm_state_string; fsm_state_literal; fsm_state_escaped].

(** ** More notions used in the statements *)

(** [at_code pre o]: once [pre] has been read, control is at
    [fsm_state_code] and [o] has been written. *)
Definition at_code (pre o : list ascii) : Prop :=
  exists x, reach (init pre) (Config fsm_state_code x [] o).

(** The same configuration with [o] written in front. *)
Definition prepend (o : list ascii) (s : config) : config :=
  Config (pc s) (c s) (inp s) (o ++ out s).

(** What is still to come: written, held back, or left to read. *)
Definition text (s : config) : list ascii :=
  out s ++ pending s ++ inp s.

(** The labels from which a slash has been seen outside a literal. *)
Definition slash_labels : list label :=
  [fsm_state_slash; fsm_state_line_comment; fsm_state_block_comment;
   fsm_state_star].

(** The text of a block comment that the two blocks of the comment read
    without leaving it: characters other than a star, and stars each
    followed by a character other than a slash. *)
Inductive comment_body : list ascii -> Prop :=
| comment_nil : comment_body []
| comment_char a b :
    a <> star_chr -> comment_body b -> comment_body (a :: b)
| comment_star a b :
    a <> slash_chr -> comment_body b -> comment_body (star_chr :: a :: b).


(** How the machine reading an output stands to the machine that wrote
    it: it has read all of it, what it has written and holds back is that
    output, and it is at the label that the writer's label calls for. *)
Definition follows (s1 s2 : config) : Prop :=
  inp s2 = [] /\ out s2 ++ pending s2 = out s1 /\
  match pc s1 with
  | fsm_state_code_char =>
      exists a, c s1 = chr a /\
        ((pc s2 = fsm_state_code /\ a <> slash_chr) \/
         (pc s2 = fsm_state_slash /\ a <> slash_chr /\ a <> star_chr))
  | fsm_state_string => pc s2 = fsm_state_string
  | fsm_state_literal => pc s2 = fsm_state_literal
  | fsm_state_escaped =>
      c s1 = chr backslash /\
      (pc s2 = fsm_state_string \/ pc s2 = fsm_state_literal)
  | fsm_exit =>
      pc s2 = fsm_state_code \/ pc s2 = fsm_state_string \/
      pc s2 = fsm_state_literal \/ pc s2 = fsm_state_escaped
  | _ => pc s2 = fsm_state_code
  end.

(** ** The integer parser of [demo/numbers.c] *)

(** [main] of [demo/numbers.c] is a second machine written with the macros
    of [fsm.h].  Its blocks read the argument through the pointer [cur]
    and accumulate [num]; a block whose end is reached, or that executes
    [break], leaves the machine like [fsmexit] does, by the two [for]
    loops [fsmstate] puts around it. *)
Module Numbers.

(** The labels the macros generate in [main]. *)
Inductive label : Set :=
| fsm_state_START
| fsm_state_octal
| fsm_state_hex
| fsm_state_decimal
| fsm_exit.

Definition label_eq_dec (x y : label) : {x = y} + {x <> y}.
Proof. decide equality. Defined.

(** What the C standard leaves undefined and the blocks can run into. *)
Inductive fault : Set :=
| out_of_bounds      (* a read behind the terminator of the string *)
| int_overflow.      (* an [int] result that [int] cannot hold *)

Inductive res (A : Type) : Type :=
| Ok (a : A)
| Undefined (f : fault).
Arguments Ok {A} a.
Arguments Undefined {A} f.

Definition bind {A B : Type} (m : res A) (k : A -> res B) : res B :=
  match m with
  | Ok a => k a
  | Undefined f => Undefined f
  end.

Notation "x <- m ;; k" := (bind m (fun x => k))
  (at level 61, m at next level, right associativity).

(** The terminator of a C string. *)
Definition NUL : ascii := "000"%char.

(** A [char *] into the argument is the memory from the character it
    points at to the terminator, included; [[]] is the pointer just behind
    the terminator, which must not be dereferenced.  A character is read
    as its code from 0 to 255: were [char] signed, the codes from 128 on
    would be negative, and every test of the blocks would come out the
    same. *)
Definition deref (p : list ascii) : res Z :=
  match p with
  | [] => Undefined out_of_bounds
  | a :: _ => Ok (chr a)
  end.

(** The characters of a C string: those in front of the first [NUL]. *)
Fixpoint c_str (p : list ascii) : list ascii :=
  match p with
  | [] => []
  | a :: r => if Ascii.eqb a NUL then [] else a :: c_str r
  end.

(** [%d] of [fprintf]. *)
Definition print_int (n : Z) : list ascii :=
  list_ascii_of_string (DecimalString.NilZero.string_of_int (Z.to_int n)).

Record state : Type := State {
  pc : label;            (* the label control is at *)
  cur : list ascii;      (* char *cur *)
  num : Z;               (* int num *)
  sign : Z;              (* int sign *)
  err : list ascii       (* what has been written to stderr *)
}.

Section Int.

(** The largest [int]; the smallest is the one of two's complement. *)
Variable INT_MAX : Z.

Definition INT_MIN : Z := - INT_MAX - 1.

(** The result of an [int] operation whose exact value is [z]. *)
Definition int (z : Z) : res Z :=
  if (INT_MIN <=? z) && (z <=? INT_MAX) then Ok z else Undefined int_overflow.

(** [fprintf(stderr, "<name>: %c\n", ch)]. *)
Definition trace (name : string) (ch : Z) (e : list ascii) : list ascii :=
  e ++ list_ascii_of_string name ++ list_ascii_of_string ": "
    ++ [to_uchar ch; newline].

(** One block of the machine. *)
Definition step (s : state) : res state :=
  match pc s with
  | fsm_state_START =>
      c0 <- deref (cur s) ;;
      if c0 =? chr "+" then
        Ok (State fsm_state_decimal (tl (cur s)) (num s) (sign s) (err s))
      else if c0 =? chr "-" then
        Ok (State fsm_state_decimal (tl (cur s)) (num s) (-1) (err s))
      else if c0 =? chr "0" then
        c1 <- deref (tl (cur s)) ;;
        if (c1 =? chr "x") || (c1 =? chr "X") then
          Ok (State fsm_state_hex (tl (tl (cur s))) (num s) (sign s) (err s))
        else
          Ok (State fsm_state_octal (tl (cur s)) (num s) (sign s) (err s))
      else if (chr "1" <=? c0) && (c0 <=? chr "9") then
        Ok (State fsm_state_decimal (cur s) (num s) (sign s) (err s))
      else if c0 =? chr "Z" then
        Ok (State fsm_exit (cur s) (num s) (sign s) (err s))
      else if c0 =? chr "z" then
        Ok (State fsm_exit (cur s) (num s) (sign s) (err s))
      else
        c1 <- deref (tl (cur s)) ;;
        if c1 =? 0 then
          Ok (State fsm_exit (tl (cur s)) (num s) (sign s) (err s))
        else
          Ok (State fsm_state_START (tl (cur s)) (num s) (sign s) (err s))
  | fsm_state_octal =>
      c0 <- deref (cur s) ;;
      let err' := trace "octal" c0 (err s) in
      if (chr "0" <=? c0) && (c0 <=? chr "7") then
        n8 <- int (num s * 8) ;;
        n <- int (n8 + (c0 - chr "0")) ;;
        Ok (State fsm_state_octal (tl (cur s)) n (sign s) err')
      else
        Ok (State fsm_exit (cur s) (num s) (sign s) err')
  | fsm_state_hex =>
      c0 <- deref (cur s) ;;
      let err' := trace "hex" c0 (err s) in
      let hexdigit :=
        if (chr "0" <=? c0) && (c0 <=? chr "9") then chr "0"
        else if (chr "A" <=? c0) && (c0 <=? chr "F") then chr "A" - 10
        else if (chr "a" <=? c0) && (c0 <=? chr "f") then chr "a" - 10
        else 0 in
      if negb (hexdigit =? 0) then
        n16 <- int (num s * 16) ;;
        n <- int (n16 + (c0 - hexdigit)) ;;
        Ok (State fsm_state_hex (tl (cur s)) n (sign s) err')
      else
        Ok (State fsm_exit (cur s) (num s) (sign s) err')
  | fsm_state_decimal =>
      c0 <- deref (cur s) ;;
      let err' := trace "decimal" c0 (err s) in
      if (chr "0" <=? c0) && (c0 <=? chr "9") then
        n10 <- int (num s * 10) ;;
        n <- int (n10 + (c0 - chr "0")) ;;
        Ok (State fsm_state_decimal (tl (cur s)) n (sign s) err')
      else
        Ok (State fsm_exit (cur s) (num s) (sign s) err')
  | fsm_exit => Ok s
  end.

(** [run fuel s] follows the [goto]s to [fsm_exit]; [None] when [fuel]
    blocks were not enough. *)
Fixpoint run (fuel : nat) (s : state) : option (res state) :=
  if label_eq_dec (pc s) fsm_exit then Some (Ok s)
  else match fuel with
       | O => None
       | S fuel' =>
           match step s with
           | Ok s' => run fuel' s'
           | Undefined f => Some (Undefined f)
           end
       end.

(** How [main] ends: it returns, having set [num] and written to stderr,
    or it has run into undefined behaviour. *)
Inductive outcome : Type :=
| Returns (status : Z) (num : Z) (stderr : list ascii)
| Undef (f : fault).

(** The last two statements of [main], and its implicit [return 0]. *)
Definition finish (input : list ascii) (s : state) : res outcome :=
  n <- int (sign s * num s) ;;
  Ok (Returns 0 n
        (err s ++ "'"%char :: c_str input
               ++ list_ascii_of_string "' -> " ++ print_int n ++ [newline])).

(** [in]: [argv[1]] when [argc > 1], the empty string otherwise. *)
Definition arg_in (argv : list (list ascii)) : list ascii :=
  match argv with
  | _ :: a :: _ => a
  | _ => []
  end.

Definition start (input : list ascii) : state :=
  State fsm_state_START (input ++ [NUL]) 0 1 [].

Definition blocks_bound (input : list ascii) : nat :=
  (2 * List.length input + 4)%nat.

Definition main (argv : list (list ascii)) : option outcome :=
  let input := arg_in argv in
  match run (blocks_bound input) (start input) with
  | None => None
  | Some (Undefined f) => Some (Undef f)
  | Some (Ok s) =>
      match finish input s with
      | Ok o => Some o
      | Undefined f => Some (Undef f)
      end
  end.

End Int.

(** *** Notions used in the statements about [main] *)

(** The digit tests of the three loops, on characters. *)
Definition is_oct (a : ascii) : bool :=
  (chr "0" <=? chr a) && (chr a <=? chr "7").

Definition is_dec (a : ascii) : bool :=
  (chr "0" <=? chr a) && (chr a <=? chr "9").

Definition is_hex (a : ascii) : bool :=
  is_dec a
  || ((chr "A" <=? chr a) && (chr a <=? chr "F"))
  || ((chr "a" <=? chr a) && (chr a <=? chr "f")).

(** The number a digit stands for. *)
Definition digit_val (a : ascii) : Z :=
  if is_dec a then chr a - chr "0"
  else if (chr "A" <=? chr a) && (chr a <=? chr "F") then chr a - chr "A" + 10
  else chr a - chr "a" + 10.

(** The number the digits [ds] stand for in base [base], behind the
    digits already accumulated in [acc]. *)
Definition value (base : Z) (ds : list ascii) (acc : Z) : Z :=
  fold_left (fun n a => n * base + digit_val a) ds acc.

(** [rest] does not begin with a character that [p] accepts. *)
Definition stops (p : ascii -> bool) (rest : list ascii) : Prop :=
  match rest with
  | [] => True
  | a :: _ => p a = false
  end.

(** The characters [fsm_state_START] steps over: no sign, no digit,
    neither of the two letters that stop it, not the terminator. *)
Definition skipped (a : ascii) : bool :=
  negb (Ascii.eqb a "+") && negb (Ascii.eqb a "-") && negb (is_dec a)
  && negb (Ascii.eqb a "Z") && negb (Ascii.eqb a "z")
  && negb (Ascii.eqb a NUL).

(** [exec INT_MAX s r]: started at [s], the machine ends with [r]. *)
Definition exec (INT_MAX : Z) (s : state) (r : res state) : Prop :=
  exists fuel, run INT_MAX fuel s = Some r.

Definition measure (s : state) : nat :=
  match pc s with
  | fsm_exit => 0
  | fsm_state_START => 2 * List.length (cur s) + 2
  | _ => 2 * List.length (cur s) + 1
  end.

(** [cur] points into the string: the terminator is still ahead, and at
    [fsm_state_START] it is not the terminator that [cur] points at. *)
Definition in_string (s : state) : Prop :=
  (exists l, cur s = l ++ [NUL]) /\
  (pc s = fsm_state_START -> exists a l, cur s = a :: l /\ a <> NUL).

(** What the accumulation keeps: [num] is not negative and is an [int],
    [sign] is one or minus one. *)
Definition num_ok (INT_MAX : Z) (s : state) : Prop :=
  0 <= num s <= INT_MAX /\ (sign s = 1 \/ sign s = -1).

(** The letter behind a leading zero that announces a hexadecimal number. *)
Definition is_x (a : ascii) : bool := Ascii.eqb a "x" || Ascii.eqb a "X".

(** How a number that [fsm_state_START] hands to [fsm_state_decimal]
    begins: with a digit other than zero, or with a sign. *)
Definition decimal_start (p ds : list ascii) : Prop :=
  (p = [] /\ exists d ds', ds = d :: ds' /\ d <> "0"%char)
  \/ p = ["+"%char] \/ p = ["-"%char].

(** The sign that the prefix [p] stands for. *)
Definition sign_of (p : list ascii) : Z :=
  match p with
  | a :: _ => if Ascii.eqb a "-" then -1 else 1
  | [] => 1
  end.

(** The line that [main] writes last. *)
Definition last_line (input : list ascii) (n : Z) : list ascii :=
  "'"%char :: c_str input ++ list_ascii_of_string "' -> "
    ++ print_int n ++ [newline].

(** The largest [int] where [int] has 32 bits, for the examples. *)
Definition INT_MAX_32 : Z := 2147483647.

(** The arguments of [numbers s]. *)
Definition argv_of (s : string) : list (list ascii) :=
  [list_ascii_of_string "numbers"; list_ascii_of_string s].

End Numbers.

(** * Properties *)

(** ** Facts about characters *)

Lemma chr_range (a : ascii) : 0 <= chr a < 256.
Proof.
  unfold chr. pose proof (N_ascii_bounded a). lia.
Qed.

Lemma chr_not_EOF (a : ascii) : (chr a =? EOF) = false.
Proof.
  apply Z.eqb_neq. pose proof (chr_range a). unfold EOF. lia.
Qed.

Lemma chr_inj (a b : ascii) : chr a = chr b -> a = b.
Proof.
  unfold chr. intros H. apply N2Z.inj in H.
  rewrite <- (ascii_N_embedding a), <- (ascii_N_embedding b). now rewrite H.
Qed.

Lemma chr_eqb (a b : ascii) : (chr a =? chr b) = Ascii.eqb a b.
Proof.
  destruct (Ascii.eqb_spec a b) as [-> | Hne].
  - apply Z.eqb_refl.
  - apply Z.eqb_neq. intros H. apply Hne. now apply chr_inj.
Qed.

Lemma chr_eqb_neq (a b : ascii) : a <> b -> (chr a =? chr b) = false.
Proof.
  intros H. rewrite chr_eqb. now apply Ascii.eqb_neq.
Qed.

(** What [fgetc] read is what [fputc] writes back. *)
Lemma to_uchar_chr (a : ascii) : to_uchar (chr a) = a.
Proof.
  unfold to_uchar. rewrite Z.mod_small by apply chr_range.
  unfold chr. rewrite N2Z.id. apply ascii_N_embedding.
Qed.

Lemma fputc_chr (a : ascii) (o : list ascii) : fputc (chr a) o = o ++ [a].
Proof.
  unfold fputc. now rewrite to_uchar_chr.
Qed.

(** ** Sequences of blocks *)

Lemma steps_S (n : nat) (s : config) : steps (S n) s = steps n (step s).
Proof.
  unfold steps. apply Nat.iter_succ_r.
Qed.

Lemma steps_add (n m : nat) (s : config) :
  steps (n + m) s = steps m (steps n s).
Proof.
  revert s. induction n as [|n IH]; intros s.
  - reflexivity.
  - change (S n + m)%nat with (S (n + m)). now rewrite !steps_S, IH.
Qed.

Lemma step_exit (s : config) : pc s = fsm_exit -> step s = s.
Proof.
  intros H. unfold step. now rewrite H.
Qed.

Lemma steps_exit (n : nat) (s : config) : pc s = fsm_exit -> steps n s = s.
Proof.
  intros H. induction n as [|n IH].
  - reflexivity.
  - now rewrite steps_S, step_exit.
Qed.

Lemma reach_refl (s : config) : reach s s.
Proof.
  now exists O.
Qed.

Lemma reach_step (s : config) : reach s (step s).
Proof.
  now exists 1%nat.
Qed.

Lemma reach_trans (s1 s2 s3 : config) :
  reach s1 s2 -> reach s2 s3 -> reach s1 s3.
Proof.
  intros [n Hn] [m Hm]. exists (n + m)%nat.
  now rewrite steps_add, Hn.
Qed.

Lemma reach_step_l (s s' : config) : reach (step s) s' -> reach s s'.
Proof.
  apply reach_trans, reach_step.
Qed.

Lemma exec_exit (s : config) : pc s = fsm_exit -> exec s (out s).
Proof.
  intros H. exists s. auto using reach_refl.
Qed.

Lemma exec_reach (s s' : config) (o : list ascii) :
  reach s s' -> exec s' o -> exec s o.
Proof.
  intros H (s'' & H' & Hpc & Ho). exists s''. eauto using reach_trans.
Qed.

Lemma exec_step (s : config) (o : list ascii) : exec (step s) o -> exec s o.
Proof.
  apply exec_reach, reach_step.
Qed.

(** The machine is deterministic: a run returns one output. *)
Lemma exec_det (s : config) (o1 o2 : list ascii) :
  exec s o1 -> exec s o2 -> o1 = o2.
Proof.
  intros (s1 & [n Hn] & Hpc1 & <-) (s2 & [m Hm] & Hpc2 & <-).
  assert (E : steps (n + m) s = steps (m + n) s) by (f_equal; lia).
  rewrite !steps_add, Hn, Hm in E.
  rewrite !steps_exit in E by assumption. now rewrite E.
Qed.

Lemma run_steps (n : nat) (s : config) :
  pc (steps n s) = fsm_exit -> run n s = Some (out (steps n s)).
Proof.
  revert s. induction n as [|n IH]; intros s H; cbn [run].
  - cbn in H. now destruct (label_eq_dec (pc s) fsm_exit).
  - destruct (label_eq_dec (pc s) fsm_exit) as [E|E].
    + now rewrite steps_exit.
    + rewrite steps_S in *. now apply IH.
Qed.

(** ** Termination *)

Lemma step_measure (s : config) :
  pc s <> fsm_exit -> (measure (step s) < measure s)%nat.
Proof.
  destruct s as [l x i o]. intros H.
  destruct l; try contradiction; unfold step, measure; cbn [pc c inp out];
    try (destruct i as [|a i]; cbn [fgetc]; [cbn; lia|]; rewrite chr_not_EOF);
    repeat match goal with
           | |- context [if ?b then _ else _] => destruct b
           end; cbn [pc inp List.length]; lia.
Qed.

Lemma steps_measure (n : nat) (s : config) :
  (measure s <= n)%nat -> pc (steps n s) = fsm_exit.
Proof.
  revert s. induction n as [|n IH]; intros s H.
  - cbn. destruct s as [[] x i o]; cbn in *; try lia. reflexivity.
  - rewrite steps_S. destruct (label_eq_dec (pc s) fsm_exit) as [E|E].
    + rewrite step_exit by assumption. now rewrite steps_exit.
    + apply IH. pose proof (step_measure s E). lia.
Qed.

Lemma exec_total (s : config) : exists o, exec s o.
Proof.
  exists (out (steps (measure s) s)). exists (steps (measure s) s).
  split; [now exists (measure s) | split; [now apply steps_measure | reflexivity]].
Qed.

Lemma exec_run (n : nat) (s : config) (o : list ascii) :
  (measure s <= n)%nat -> exec s o -> run n s = Some o.
Proof.
  intros Hn He. pose proof (steps_measure n s Hn) as Hpc.
  rewrite run_steps by assumption. f_equal.
  apply (exec_det s); [|assumption].
  exists (steps n s). split; [now exists n | auto].
Qed.

Lemma run_exec (n : nat) (s : config) (o : list ascii) :
  run n s = Some o -> exec s o.
Proof.
  revert s. induction n as [|n IH]; intros s; simpl;
    destruct (label_eq_dec (pc s) fsm_exit) as [E|E]; intros H;
    try discriminate.
  - injection H as <-. now apply exec_exit.
  - injection H as <-. now apply exec_exit.
  - apply exec_step. now apply IH.
Qed.

Lemma uncomment_exec (input o : list ascii) :
  uncomment input = Some o <-> exec (init input) o.
Proof.
  unfold uncomment. split.
  - apply run_exec.
  - apply exec_run. unfold blocks_bound. cbn. lia.
Qed.

(** ** The blocks, one equation each *)

Ltac block :=
  unfold step; cbn [pc c inp out fgetc];
  rewrite ?chr_not_EOF, ?chr_eqb, ?fputc_chr.

Lemma step_START x i o :
  step (Config fsm_state_START x i o) = Config fsm_state_code x i o.
Proof. reflexivity. Qed.

Lemma step_code_other x a r o :
  a <> slash_chr ->
  step (Config fsm_state_code x (a :: r) o) =
  Config fsm_state_code_char (chr a) r o.
Proof.
  intros H. block. apply Ascii.eqb_neq in H. now rewrite H.
Qed.


Lemma step_code_char a r o :
  step (Config fsm_state_code_char (chr a) r o) =
  Config (dispatch a) (chr a) r (o ++ [a]).
Proof.
  block. unfold dispatch.
  destruct (Ascii.eqb a dquote); [reflexivity|].
  now destruct (Ascii.eqb a squote).
Qed.

Lemma step_slash_other x a r o :
  a <> slash_chr -> a <> star_chr ->
  step (Config fsm_state_slash x (a :: r) o) =
  Config fsm_state_code_char (chr a) r (o ++ [slash_chr]).
Proof.
  intros H1 H2. block.
  apply Ascii.eqb_neq in H1, H2. now rewrite H1, H2.
Qed.

Lemma step_string_backslash x r o :
  step (Config fsm_state_string x (backslash :: r) o) =
  Config fsm_state_escaped (chr backslash) r o.
Proof. reflexivity. Qed.

Lemma step_literal_backslash x r o :
  step (Config fsm_state_literal x (backslash :: r) o) =
  Config fsm_state_escaped (chr backslash) r o.
Proof. reflexivity. Qed.

(** [fsm_state_escaped] is entered with the backslash in [c]: [quote] is
    the backslash, never the double quote. *)
Lemma step_escaped_backslash b r o :
  step (Config fsm_state_escaped (chr backslash) (b :: r) o) =
  Config fsm_state_literal (chr b) r (o ++ [backslash; b]).
Proof.
  block. cbn [Ascii.eqb Bool.eqb backslash dquote].
  now rewrite <- app_assoc.
Qed.

Lemma step_string_other x a r o :
  a <> backslash -> a <> dquote ->
  step (Config fsm_state_string x (a :: r) o) =
  Config fsm_state_string (chr a) r (o ++ [a]).
Proof.
  intros H1 H2. block.
  apply Ascii.eqb_neq in H1, H2. now rewrite H1, H2.
Qed.

Lemma step_string_dquote x r o :
  step (Config fsm_state_string x (dquote :: r) o) =
  Config fsm_state_code (chr dquote) r (o ++ [dquote]).
Proof. reflexivity. Qed.

Lemma step_literal_other x a r o :
  a <> backslash -> a <> squote ->
  step (Config fsm_state_literal x (a :: r) o) =
  Config fsm_state_literal (chr a) r (o ++ [a]).
Proof.
  intros H1 H2. block.
  apply Ascii.eqb_neq in H1, H2. now rewrite H1, H2.
Qed.

Lemma step_literal_squote x r o :
  step (Config fsm_state_literal x (squote :: r) o) =
  Config fsm_state_code (chr squote) r (o ++ [squote]).
Proof. reflexivity. Qed.

Lemma step_line_comment_other x a r o :
  a <> newline ->
  step (Config fsm_state_line_comment x (a :: r) o) =
  Config fsm_state_line_comment (chr a) r o.
Proof.
  intros H. block. apply Ascii.eqb_neq in H. now rewrite H.
Qed.

Lemma step_line_comment_newline x r o :
  step (Config fsm_state_line_comment x (newline :: r) o) =
  Config fsm_state_code (chr newline) r o.
Proof. reflexivity. Qed.

(** ** Escapes *)

(** C10: in [fsm_state_literal], a backslash followed by any character [b],
    the single quote included, is written out followed by [b], and control
    is back at [fsm_state_literal]: the escaped quote does not end the
    character literal.  In the example the literal ends at the third quote
    and the comment behind it is removed. *)
Theorem escape_in_char_literal :
  (forall b r x o,
     steps 2 (Config fsm_state_literal x (backslash :: b :: r) o) =
     Config fsm_state_literal (chr b) r (o ++ [backslash; b])) /\
  (forall r x o,
     steps 3 (Config fsm_state_literal x (backslash :: squote :: squote :: r) o) =
     Config fsm_state_code (chr squote) r (o ++ [backslash; squote; squote])) /\
  uncomment ex_escaped_squote = Some (list_ascii_of_string "c = '\''; ").
Proof.
  split; [|split].
  - intros b r x o. rewrite !steps_S, step_literal_backslash.
    now rewrite step_escaped_backslash.
  - intros r x o. rewrite !steps_S, step_literal_backslash.
    rewrite step_escaped_backslash, step_literal_squote.
    cbn. now rewrite <- app_assoc.
  - vm_compute. reflexivity.
Qed.

(** C1 (the code departs from it): a backslash read in
    [fsm_state_string] leads, one character later, to
    [fsm_state_literal] and not back to [fsm_state_string]: [quote] is
    assigned from [c], which holds the backslash, so the comparison of
    [quote] with the double quote never succeeds.  On
    [ex_escaped_backslash] the string is therefore never closed and the
    block comment behind it is kept. *)
Theorem escape_in_string_resumes_literal :
  (forall b r x o,
     steps 2 (Config fsm_state_string x (backslash :: b :: r) o) =
     Config fsm_state_literal (chr b) r (o ++ [backslash; b])) /\
  uncomment ex_escaped_backslash = Some ex_escaped_backslash.
Proof.
  split.
  - intros b r x o. rewrite !steps_S, step_string_backslash.
    now rewrite step_escaped_backslash.
  - vm_compute. reflexivity.
Qed.

(** C3 (the code departs from it): on [ex_escaped_quote] the output is the
    whole input, the line comment included, not the twelve characters in
    front of the comment. *)
Theorem escaped_quote_example :
  List.length ex_escaped_quote = 16%nat /\
  List.length ex_escaped_quote_stripped = 12%nat /\
  uncomment ex_escaped_quote = Some ex_escaped_quote /\
  uncomment ex_escaped_quote <> Some ex_escaped_quote_stripped.
Proof.
  split; [reflexivity|]. split; [reflexivity|].
  split; vm_compute; [reflexivity | discriminate].
Qed.

(** ** Line comments *)

(** C2 as stated fails: the output for [ex_line_comment] is not the input
    with the comment alone removed. *)
Lemma line_comment_newline_counterexample :
  uncomment ex_line_comment <>
    Some (list_ascii_of_string "a" ++ newline :: list_ascii_of_string "b") /\
  out (step (Config fsm_state_line_comment 0 [newline] [])) <> [newline].
Proof.
  split; vm_compute; discriminate.
Qed.

(** C2, amended: in [fsm_state_line_comment] a newline is read and not
    written, and control goes to [fsm_state_code]; the newline that ends a
    line comment is removed with the comment, and [ex_line_comment]
    becomes "ab". *)
Theorem line_comment_newline_dropped :
  (forall x r o,
     step (Config fsm_state_line_comment x (newline :: r) o) =
     Config fsm_state_code (chr newline) r o) /\
  uncomment ex_line_comment = Some (list_ascii_of_string "ab").
Proof.
  split; [apply step_line_comment_newline | vm_compute; reflexivity].
Qed.

(** ** The deferred slash *)

(** C5: in [fsm_state_slash], a character that is neither a slash nor a
    star makes the block write the slash it held back and go on at
    [fsm_state_code_char], which writes the character and goes where it
    would have gone had [fsm_state_code] read the character; "a/b" is
    copied unchanged. *)
Theorem slash_other_redispatch (a : ascii) (r o : list ascii) (x : Z)
  (Hslash : a <> slash_chr) (Hstar : a <> star_chr) :
  steps 2 (Config fsm_state_slash x (a :: r) o) =
    Config (dispatch a) (chr a) r (o ++ [slash_chr; a]) /\
  steps 2 (Config fsm_state_slash x (a :: r) o) =
    steps 2 (Config fsm_state_code x (a :: r) (o ++ [slash_chr])) /\
  dispatch dquote = fsm_state_string /\
  dispatch squote = fsm_state_literal /\
  (a <> dquote -> a <> squote -> dispatch a = fsm_state_code) /\
  strip "a/b" = Some "a/b"%string.
Proof.
  rewrite !steps_S. cbn [steps Nat.iter].
  rewrite step_slash_other, step_code_other by assumption.
  rewrite !step_code_char, <- app_assoc.
  split; [reflexivity|]. split; [reflexivity|].
  split; [reflexivity|]. split; [reflexivity|]. split.
  - intros Hd Hs. unfold dispatch.
    apply Ascii.eqb_neq in Hd, Hs. now rewrite Hd, Hs.
  - vm_compute. reflexivity.
Qed.

Lemma slash_other_redispatch_witness :
  "b"%char <> slash_chr /\ "b"%char <> star_chr /\
  steps 2 (Config fsm_state_slash 0 ["b"%char] ["a"%char]) =
    Config fsm_state_code (chr "b") [] (list_ascii_of_string "a/b").
Proof.
  assert (Hslash : "b"%char <> slash_chr) by (unfold slash_chr; discriminate).
  assert (Hstar : "b"%char <> star_chr) by (unfold star_chr; discriminate).
  split; [exact Hslash | split; [exact Hstar |]].
  exact (proj1 (slash_other_redispatch "b" [] ["a"%char] 0 Hslash Hstar)).
Defined.

(** ** Plain text *)

Lemma absent_not_In (a : ascii) (s : list ascii) :
  absent a s = true -> ~ In a s.
Proof.
  unfold absent. rewrite forallb_forall. intros H Hin.
  specialize (H a Hin). now rewrite Ascii.eqb_refl in H.
Qed.

Lemma plain_cons (a : ascii) (s : list ascii) :
  plain (a :: s) ->
  (a <> slash_chr /\ a <> dquote /\ a <> squote) /\ plain s.
Proof.
  unfold plain. cbn [In]. intros (H1 & H2 & H3).
  repeat split; intros H; subst; tauto.
Qed.

Lemma dispatch_plain (a : ascii) :
  a <> dquote -> a <> squote -> dispatch a = fsm_state_code.
Proof.
  intros Hd Hs. unfold dispatch.
  apply Ascii.eqb_neq in Hd, Hs. now rewrite Hd, Hs.
Qed.

Lemma step_eof_code x o :
  step (Config fsm_state_code x [] o) = Config fsm_exit EOF [] o.
Proof. reflexivity. Qed.

(** [fsm_state_code] copies plain text. *)
Lemma code_copies_plain (s r : list ascii) :
  plain s ->
  forall x o, exists x',
    reach (Config fsm_state_code x (s ++ r) o)
          (Config fsm_state_code x' r (o ++ s)).
Proof.
  induction s as [|a s IH]; intros Hp x o.
  - exists x. rewrite app_nil_r. apply reach_refl.
  - apply plain_cons in Hp as [(Hsl & Hd & Hs) Hp].
    destruct (IH Hp (chr a) (o ++ [a])) as [x' Hx'].
    exists x'. cbn [app].
    do 2 apply reach_step_l.
    rewrite step_code_other, step_code_char, dispatch_plain by assumption.
    now rewrite <- app_assoc in Hx'.
Qed.

Lemma exec_code_eof x o : exec (Config fsm_state_code x [] o) o.
Proof.
  apply exec_step. rewrite step_eof_code. now apply exec_exit.
Qed.

(** C6: text without a slash, a double quote and a single quote is
    copied unchanged. *)
Theorem uncomment_plain_identity (s : list ascii)
  (Hslash : ~ In slash_chr s) (Hdquote : ~ In dquote s)
  (Hsquote : ~ In squote s) :
  uncomment s = Some s.
Proof.
  apply uncomment_exec. apply exec_step. unfold init, init_from.
  rewrite step_START.
  destruct (code_copies_plain s [] (conj Hslash (conj Hdquote Hsquote)) 0 [])
    as [x' Hr].
  rewrite app_nil_r in Hr. eapply exec_reach; [exact Hr|].
  apply exec_code_eof.
Qed.

Lemma uncomment_plain_identity_witness :
  uncomment (list_ascii_of_string "int x = 1 * 2;") =
  Some (list_ascii_of_string "int x = 1 * 2;").
Proof.
  apply uncomment_plain_identity; apply absent_not_In; reflexivity.
Defined.

(** ** Literals *)

Lemma string_copies_body (body r : list ascii) :
  ~ In dquote body -> ~ In backslash body ->
  forall x o, exists x',
    reach (Config fsm_state_string x (body ++ r) o)
          (Config fsm_state_string x' r (o ++ body)).
Proof.
  induction body as [|a s IH]; intros Hq Hb x o.
  - exists x. rewrite app_nil_r. apply reach_refl.
  - cbn [In] in Hq, Hb.
    destruct (IH (fun H => Hq (or_intror H)) (fun H => Hb (or_intror H))
                 (chr a) (o ++ [a])) as [x' Hx'].
    exists x'. cbn [app]. apply reach_step_l.
    rewrite step_string_other by (intros ->; tauto).
    now rewrite <- app_assoc in Hx'.
Qed.

Lemma literal_copies_body (body r : list ascii) :
  ~ In squote body -> ~ In backslash body ->
  forall x o, exists x',
    reach (Config fsm_state_literal x (body ++ r) o)
          (Config fsm_state_literal x' r (o ++ body)).
Proof.
  induction body as [|a s IH]; intros Hq Hb x o.
  - exists x. rewrite app_nil_r. apply reach_refl.
  - cbn [In] in Hq, Hb.
    destruct (IH (fun H => Hq (or_intror H)) (fun H => Hb (or_intror H))
                 (chr a) (o ++ [a])) as [x' Hx'].
    exists x'. cbn [app]. apply reach_step_l.
    rewrite step_literal_other by (intros ->; tauto).
    now rewrite <- app_assoc in Hx'.
Qed.

(** A literal without escapes, from its opening quote in
    [fsm_state_code] to its closing quote. *)
Lemma code_copies_literal (q : ascii) (body r : list ascii) :
  q = dquote \/ q = squote -> ~ In q body -> ~ In backslash body ->
  forall x o,
    reach (Config fsm_state_code x (q :: body ++ q :: r) o)
          (Config fsm_state_code (chr q) r (o ++ q :: body ++ [q])).
Proof.
  intros [-> | ->] Hq Hb x o; do 2 apply reach_step_l;
    (rewrite step_code_other by (unfold slash_chr; discriminate));
    rewrite step_code_char.
  - destruct (string_copies_body body (dquote :: r) Hq Hb (chr dquote) (o ++ [dquote]))
      as [x' Hx'].
    eapply reach_trans; [exact Hx'|]. apply reach_step_l.
    rewrite step_string_dquote, <- !app_assoc. apply reach_refl.
  - destruct (literal_copies_body body (squote :: r) Hq Hb (chr squote) (o ++ [squote]))
      as [x' Hx'].
    eapply reach_trans; [exact Hx'|]. apply reach_step_l.
    rewrite step_literal_squote, <- !app_assoc. apply reach_refl.
Qed.

(** Each block that runs inside a literal writes what it reads, at once
    or, for the backslash, in the next block: after the block, what is
    written and held back is what was before, followed by what was read. *)
Lemma literal_blocks_copy (l : label) (x : Z) (i o : list ascii) :
  In l literal_labels ->
  exists read,
    i = read ++ inp (step (Config l x i o)) /\
    out (step (Config l x i o)) ++ pending (step (Config l x i o)) =
    (o ++ pending (Config l x i o)) ++ read.
Proof.
  intros Hl. unfold literal_labels in Hl. cbn [In] in Hl.
  destruct Hl as [<- | [<- | [<- | []]]];
    unfold step, pending, fputc; cbn [pc c inp out];
    (destruct i as [|a i]; cbn [fgetc];
     [change (EOF =? EOF) with true; cbv iota; exists []
     |rewrite chr_not_EOF; exists [a]]);
    repeat match goal with
           | |- context [if ?b then _ else _] => destruct b
           end; cbn [pc c inp out];
    rewrite ?to_uchar_chr, ?app_nil_r, <- ?app_assoc; split; reflexivity.
Qed.

(** X20: the blocks that run inside a literal write every character they
    read, unchanged and in order, whatever it is.  A string or character
    literal whose body holds no closing quote and no backslash, but
    otherwise any characters, slashes and stars included, is written out
    unchanged with its two delimiters, and control is back at
    [fsm_state_code] behind it; set in plain text, the whole input is the
    output. *)
Theorem literal_copied_verbatim (q : ascii) (pre body post : list ascii)
  (Hq : q = dquote \/ q = squote)
  (Hbody : ~ In q body) (Hesc : ~ In backslash body)
  (Hpre : plain pre) (Hpost : plain post) :
  Forall (fun l => forall x i o, exists read,
            i = read ++ inp (step (Config l x i o)) /\
            out (step (Config l x i o)) ++ pending (step (Config l x i o)) =
            (o ++ pending (Config l x i o)) ++ read)
         literal_labels /\
  (forall x o r,
     reach (Config fsm_state_code x (q :: body ++ q :: r) o)
           (Config fsm_state_code (chr q) r (o ++ q :: body ++ [q]))) /\
  uncomment (pre ++ q :: body ++ q :: post) =
    Some (pre ++ q :: body ++ q :: post).
Proof.
  split; [|split].
  - apply Forall_forall. intros l Hl x i o. now apply literal_blocks_copy.
  - intros x o r. now apply code_copies_literal.
  - apply uncomment_exec. apply exec_step. unfold init, init_from.
    rewrite step_START.
    destruct (code_copies_plain pre (q :: body ++ q :: post) Hpre 0 [])
      as [x1 H1].
    eapply exec_reach; [exact H1|].
    eapply exec_reach; [now apply code_copies_literal|].
    destruct (code_copies_plain post [] Hpost (chr q)
                ([] ++ pre ++ q :: body ++ [q])) as [x2 H2].
    rewrite app_nil_r in H2. eapply exec_reach; [exact H2|].
    cbn [app]. rewrite <- !app_assoc. cbn [app]. rewrite <- !app_assoc.
    cbn [app]. apply exec_code_eof.
Qed.

Lemma literal_copied_verbatim_witness :
  uncomment ex_inert_markers = Some ex_inert_markers.
Proof.
  refine (proj2 (proj2 (literal_copied_verbatim dquote
           (list_ascii_of_string "s = ")
           (list_ascii_of_string "/* not a comment */")
           (list_ascii_of_string ";") _ _ _ _ _))).
  - now left.
  - apply absent_not_In. reflexivity.
  - apply absent_not_In. reflexivity.
  - repeat split; apply absent_not_In; reflexivity.
  - repeat split; apply absent_not_In; reflexivity.
Defined.

(** C7 (the code departs from it): the string literal
    [ex_escape_then_comment] is not copied unchanged.  Behind the escaped
    double quote control is at [fsm_state_literal], the single quote takes
    it to [fsm_state_code] in the middle of the string, and the comment
    markers that the string holds are taken for a block comment and
    removed with what is between them.  The example of the claim, which
    holds no backslash, is copied unchanged. *)
Theorem literal_with_escape_altered :
  uncomment ex_escape_then_comment =
    Some [dquote; backslash; dquote; squote; dquote] /\
  uncomment ex_escape_then_comment <> Some ex_escape_then_comment /\
  steps 3 (Config fsm_state_string 0
             (backslash :: dquote :: squote :: list_ascii_of_string "/*x*/"
                ++ [dquote])
             [dquote]) =
    Config fsm_state_code (chr squote)
      (list_ascii_of_string "/*x*/" ++ [dquote])
      [dquote; backslash; dquote; squote] /\
  uncomment ex_inert_markers = Some ex_inert_markers.
Proof.
  split; [vm_compute; reflexivity|].
  split; [vm_compute; discriminate|].
  split; vm_compute; reflexivity.
Qed.

(** ** End of the input *)

(** What has been written is never taken back. *)
Lemma step_out_grows (s : config) : exists t, out (step s) = out s ++ t.
Proof.
  destruct s as [l x i o]. unfold step, fputc; cbn [pc c inp out].
  destruct l; try destruct (fgetc i) as [c' in'];
    repeat match goal with
           | |- context [if ?b then _ else _] => destruct b
           end; cbn [out];
    try (now exists []; rewrite app_nil_r);
    try (now eexists);
    rewrite <- app_assoc; now eexists.
Qed.

Lemma steps_out_grows (n : nat) (s : config) :
  exists t, out (steps n s) = out s ++ t.
Proof.
  revert s. induction n as [|n IH]; intros s.
  - exists []. now rewrite app_nil_r.
  - rewrite steps_S. destruct (IH (step s)) as [t Ht].
    destruct (step_out_grows s) as [t' Ht'].
    exists (t' ++ t). now rewrite Ht, Ht', app_assoc.
Qed.

(** C4: for every input the function returns, with an output (the model
    has no other outcome); from any configuration the run ends and its
    output extends what had been written; at the end of the input every
    reading block goes to [fsm_exit] and writes nothing,
    [fsm_state_escaped] after writing the backslash it holds; and the
    unterminated block comment of the example leaves "code ". *)
Theorem uncomment_terminates :
  (forall input, exists o, uncomment input = Some o) /\
  (forall s, exists o t, exec s o /\ o = out s ++ t) /\
  Forall (fun l => forall x o,
            step (Config l x [] o) = Config fsm_exit EOF [] o)
         reading_labels /\
  (forall x o,
     step (Config fsm_state_escaped x [] o) =
     Config fsm_exit EOF [] (fputc x o)) /\
  strip "code /* unterminated" = Some "code "%string.
Proof.
  split; [|split; [|split; [|split]]].
  - intros input. destruct (exec_total (init input)) as [o Ho].
    exists o. now apply uncomment_exec.
  - intros s. destruct (exec_total s) as [o Ho]. exists o.
    destruct Ho as (s' & [n Hn] & Hpc & Ho).
    destruct (steps_out_grows n s) as [t Ht]. exists t.
    split.
    + exists s'. split; [now exists n | auto].
    + now rewrite <- Ho, <- Hn.
  - unfold reading_labels. repeat constructor.
  - reflexivity.
  - vm_compute. reflexivity.
Qed.

(** More blocks than [blocks_bound] change nothing. *)
Lemma run_enough (input : list ascii) (n : nat) :
  (blocks_bound input <= n)%nat -> run n (init input) = uncomment input.
Proof.
  intros H. destruct (exec_total (init input)) as [o Ho].
  rewrite (proj2 (uncomment_exec input o) Ho).
  apply exec_run; [|assumption]. unfold blocks_bound in H. cbn. lia.
Qed.

(** The value [c] holds on entry is never used. *)
Lemma init_from_any (c0 : Z) (input : list ascii) :
  step (init_from c0 input) = Config fsm_state_code c0 input [] /\
  step (step (init_from c0 input)) = step (step (init input)).
Proof.
  split; [reflexivity|].
  unfold init, init_from. rewrite !step_START.
  unfold step; cbn [pc c inp out]. reflexivity.
Qed.

(** ** Input that ends behind a slash *)

(** A block that did not meet the end of the input does the same when
    more input follows. *)
Lemma step_extend (t : list ascii) (s : config) :
  pc (step s) <> fsm_exit -> step (extend t s) = extend t (step s).
Proof.
  destruct s as [l x i o]. unfold extend, step; cbn [pc c inp out].
  destruct l; try reflexivity;
    try (destruct i as [|a i]; cbn [fgetc app];
         [cbn; intros H; now contradiction H
         |rewrite chr_not_EOF]);
    repeat match goal with
           | |- context [if ?b then _ else _] => destruct b
           end; cbn [pc c inp out]; reflexivity.
Qed.

Lemma steps_extend (t : list ascii) (n : nat) (s : config) :
  pc (steps n s) <> fsm_exit -> steps n (extend t s) = extend t (steps n s).
Proof.
  revert s. induction n as [|n IH]; intros s H.
  - reflexivity.
  - rewrite !steps_S in *.
    assert (Hs : pc (step s) <> fsm_exit).
    { intros E. apply H. now rewrite steps_exit. }
    rewrite step_extend by assumption. now apply IH.
Qed.

(** C8: at the end of the input [fsm_state_slash] goes to [fsm_exit]
    and the slash it holds back is not written.  So, whenever the machine
    is at [fsm_state_code] with [o] written once [input] is used up, the
    output for [input] with one more slash behind it is [o], which is also
    the output for [input] alone. *)
Theorem trailing_slash_dropped (input : list ascii) (x : Z) (o : list ascii)
  (Hcode : reach (init input) (Config fsm_state_code x [] o)) :
  (forall x' o',
     step (Config fsm_state_slash x' [] o') = Config fsm_exit EOF [] o') /\
  reach (init (input ++ [slash_chr]))
        (Config fsm_state_slash (chr slash_chr) [] o) /\
  uncomment (input ++ [slash_chr]) = Some o /\
  uncomment input = Some o.
Proof.
  destruct Hcode as [n Hn].
  assert (Hr : reach (init (input ++ [slash_chr]))
                     (Config fsm_state_slash (chr slash_chr) [] o)).
  { apply reach_trans with (Config fsm_state_code x [slash_chr] o).
    - exists n. change (init (input ++ [slash_chr]))
        with (extend [slash_chr] (init input)).
      rewrite steps_extend; rewrite Hn; [reflexivity | discriminate].
    - apply reach_step. }
  split; [reflexivity|]. split; [exact Hr|]. split.
  - apply uncomment_exec. eapply exec_reach; [exact Hr|].
    apply exec_step. now apply exec_exit.
  - apply uncomment_exec.
    apply exec_reach with (Config fsm_state_code x [] o);
      [now exists n | apply exec_code_eof].
Qed.

Lemma trailing_slash_dropped_witness :
  uncomment (list_ascii_of_string "x+y/") = Some (list_ascii_of_string "x+y") /\
  uncomment (list_ascii_of_string "x+y") = Some (list_ascii_of_string "x+y").
Proof.
  refine (proj2 (proj2 (trailing_slash_dropped (list_ascii_of_string "x+y")
                          (chr "y") (list_ascii_of_string "x+y") _))).
  exists 7%nat. vm_compute. reflexivity.
Defined.

(** ** One pass over the input *)

(** A block reads at most one character, the next one. *)
Lemma step_reads_at_most_one (s : config) :
  inp (step s) = inp s \/ exists a, inp s = a :: inp (step s).
Proof.
  destruct s as [l x i o]. unfold step; cbn [pc c inp out].
  destruct l; destruct i as [|a i]; cbn [fgetc];
    rewrite ?chr_not_EOF; try change (EOF =? EOF) with true; cbv iota;
    repeat match goal with
           | |- context [if ?b then _ else _] => destruct b
           end; cbn [inp];
    first [left; reflexivity | right; eexists; reflexivity].
Qed.

(** Control gets to [fsm_exit] only when [fgetc] has delivered [EOF]. *)
Lemma exit_input_exhausted (input : list ascii) (n : nat) :
  pc (steps n (init input)) = fsm_exit -> inp (steps n (init input)) = [].
Proof.
  assert (G : forall m s, (pc s = fsm_exit -> inp s = []) ->
                          pc (steps m s) = fsm_exit -> inp (steps m s) = []).
  { induction m as [|m IH]; intros s Hs; [exact Hs|].
    rewrite steps_S. apply IH. clear IH.
    destruct s as [l x i o]. unfold step; cbn [pc c inp out] in *.
    destruct l; try exact Hs; destruct i as [|a i]; cbn [fgetc];
      rewrite ?chr_not_EOF; try change (EOF =? EOF) with true; cbv iota;
      repeat match goal with
             | |- context [if ?b then _ else _] => destruct b
             end; cbn [pc inp]; first [discriminate | reflexivity]. }
  apply G. discriminate.
Qed.

Lemma subseq_nil_l (l : list ascii) : subseq [] l.
Proof.
  induction l; now constructor.
Qed.

Lemma subseq_refl (l : list ascii) : subseq l l.
Proof.
  induction l; now constructor.
Qed.

Lemma subseq_app (l1 l2 k1 k2 : list ascii) :
  subseq l1 l2 -> subseq k1 k2 -> subseq (l1 ++ k1) (l2 ++ k2).
Proof.
  intros H K. induction H; cbn [app]; try assumption; now constructor.
Qed.

Lemma subseq_snoc_keep (a : ascii) (l1 l2 : list ascii) :
  subseq l1 l2 -> subseq (l1 ++ [a]) (l2 ++ [a]).
Proof.
  intros H. apply subseq_app; [assumption | apply subseq_refl].
Qed.

Lemma subseq_snoc_drop (a : ascii) (l1 l2 : list ascii) :
  subseq l1 l2 -> subseq l1 (l2 ++ [a]).
Proof.
  intros H. rewrite <- (app_nil_r l1).
  apply subseq_app; [assumption | apply subseq_nil_l].
Qed.

Lemma subseq_prefix (l1 p l2 : list ascii) :
  subseq (l1 ++ p) l2 -> subseq l1 l2.
Proof.
  intros H. remember (l1 ++ p) as k eqn:E. revert l1 E.
  induction H as [|a k1 k2 H IH|a k1 k2 H IH]; intros l1 E.
  - destruct l1; [constructor | discriminate].
  - destruct l1 as [|b l1]; [apply subseq_nil_l|].
    injection E as -> ->. constructor. now apply IH.
  - constructor. now apply IH.
Qed.

Lemma copies_init (input : list ascii) : copies input (init input).
Proof.
  exists []. split; [reflexivity | constructor].
Qed.

Lemma copies_step (input : list ascii) (s : config) :
  copies input s -> copies input (step s).
Proof.
  destruct s as [l x i o]. intros (k & Hk & Hs).
  unfold copies, pending, step, fputc in *; cbn [pc c inp out] in *.
  destruct l;
    try (destruct i as [|a i]; cbn [fgetc];
         [change (EOF =? EOF) with true; cbv iota
         |rewrite chr_not_EOF, ?chr_eqb]);
    repeat match goal with
           | |- context [if ?b then _ else _] => destruct b eqn:?
           end; cbn [pc c inp out];
    rewrite ?to_uchar_chr, ?app_nil_r in *;
    try (exists k; split; [now rewrite ?app_nil_r|]; first
           [ assumption
           | now apply subseq_prefix in Hs ]);
    try (exists (k ++ [a]); split; [now rewrite <- app_assoc|]; first
           [ now apply subseq_snoc_keep
           | now apply subseq_snoc_drop
           | apply subseq_snoc_drop; now apply subseq_prefix in Hs ]).
  (* [fsm_state_code] has read the slash that [fsm_state_slash] holds *)
  exists (k ++ [a]); split; [now rewrite <- app_assoc|].
  match goal with H : Ascii.eqb a slash_chr = true |- _ =>
    apply Ascii.eqb_eq in H; subst a end.
  now apply subseq_snoc_keep.
Qed.

Lemma copies_steps (input : list ascii) (n : nat) :
  copies input (steps n (init input)).
Proof.
  induction n as [|n IH]; [apply copies_init|].
  unfold steps in *. cbn [Nat.iter]. now apply copies_step.
Qed.

(** The output is the input with some characters left out. *)
Lemma uncomment_subseq (input o : list ascii) :
  uncomment input = Some o -> subseq o input.
Proof.
  intros H. apply uncomment_exec in H.
  destruct H as (s & [n Hn] & Hpc & Ho). subst s o.
  destruct (copies_steps input n) as (k & Hk & Hs).
  rewrite (exit_input_exhausted input n Hpc), app_nil_r in Hk.
  unfold pending in Hs. rewrite Hpc, app_nil_r in Hs. now subst k.
Qed.

(** ** A slash at the very end *)

(** C9 (the code departs from it): on "a/" both characters are read, one
    after the other, and the input is used up, but the slash is neither
    written nor part of a comment: control never is at a label of a
    comment block, and [fsm_state_slash], which writes the slash it holds
    back when another character follows, goes to [fsm_exit] at the end of
    the input without writing it. *)
Theorem trailing_slash_lost :
  uncomment ex_trailing_slash = Some (list_ascii_of_string "a") /\
  steps 4 (init ex_trailing_slash) =
    Config fsm_state_slash (chr slash_chr) [] (list_ascii_of_string "a") /\
  steps 5 (init ex_trailing_slash) =
    Config fsm_exit EOF [] (list_ascii_of_string "a") /\
  (forall n, ~ In (pc (steps n (init ex_trailing_slash))) comment_labels) /\
  steps 3 (Config fsm_state_slash (chr slash_chr) ["b"%char]
             (list_ascii_of_string "a")) =
    Config fsm_exit EOF [] (list_ascii_of_string "a/b").
Proof.
  assert (H5 : steps 5 (init ex_trailing_slash) =
               Config fsm_exit EOF [] (list_ascii_of_string "a"))
    by (vm_compute; reflexivity).
  split; [vm_compute; reflexivity|].
  split; [vm_compute; reflexivity|].
  split; [exact H5|].
  split; [|vm_compute; reflexivity].
  intros n. destruct (Nat.le_gt_cases 5 n) as [Hn | Hn].
  - replace n with (5 + (n - 5))%nat by lia.
    rewrite steps_add, H5, steps_exit by reflexivity.
    cbn. intuition discriminate.
  - do 5 (destruct n as [|n]; [vm_compute; intuition discriminate|]). lia.
Qed.


(** * Further properties of [uncomment] *)

(** ** The output is the input with characters left out *)

Lemma subseq_length (l1 l2 : list ascii) :
  subseq l1 l2 -> (List.length l1 <= List.length l2)%nat.
Proof.
  induction 1; cbn [List.length]; lia.
Qed.

(** X1: [uncomment] only deletes: its output is the input with some
    characters left out, in the same order, and so never longer than the
    input. *)
Theorem uncomment_only_deletes (input : list ascii) :
  exists o,
    uncomment input = Some o /\ subseq o input /\
    (List.length o <= List.length input)%nat.
Proof.
  destruct (exec_total (init input)) as [o Ho].
  apply uncomment_exec in Ho. exists o.
  pose proof (uncomment_subseq input o Ho) as Hs.
  auto using subseq_length.
Qed.

(** ** The variable [c] *)

(** X11: [c] is read only after [fgetc] has been assigned to it: whatever it
    holds on entry, the result is the same. *)
Theorem uncomment_ignores_initial_c (c0 : Z) (input : list ascii) :
  run (blocks_bound input) (init_from c0 input) = uncomment input.
Proof.
  unfold uncomment, blocks_bound, init, init_from.
  replace (2 * List.length input + 2)%nat
    with (S (S (2 * List.length input))) by lia.
  set (n := (2 * List.length input)%nat).
  assert (H : forall x, run (S (S n)) (Config fsm_state_START x input []) =
                        run n (step (Config fsm_state_code x input []))).
  { intros x. reflexivity. }
  rewrite !H. reflexivity.
Qed.

(** ** Input without a slash *)

Lemma text_step (s : config) :
  ~ In (pc s) slash_labels -> ~ In slash_chr (inp s) ->
  (pc s = fsm_state_code_char -> exists a, c s = chr a) ->
  text (step s) = text s /\ ~ In (pc (step s)) slash_labels /\
  ~ In slash_chr (inp (step s)) /\
  (pc (step s) = fsm_state_code_char -> exists a, c (step s) = chr a).
Proof.
  destruct s as [l x i o]. unfold text, pending, slash_labels, step, fputc;
    cbn [pc c inp out In].
  intros Hl Hi Hc.
  destruct l; try (exfalso; tauto);
    try (destruct i as [|a i]; cbn [fgetc];
         [change (EOF =? EOF) with true; cbv iota
         |rewrite chr_not_EOF, ?chr_eqb]);
    repeat match goal with
           | |- context [if ?b then _ else _] => destruct b eqn:?
           end; cbn [pc c inp out In];
    rewrite ?to_uchar_chr, ?app_nil_r, <- ?app_assoc; cbn [app];
    try (split; [reflexivity|]; split; [intuition discriminate|];
         split; [cbn [In] in Hi; tauto|]; first [discriminate | now eexists]).
  - (* the slash that the input does not hold *)
    exfalso. apply Hi. left. symmetry. now apply Ascii.eqb_eq.
Qed.

Lemma text_steps (n : nat) (s : config) :
  ~ In (pc s) slash_labels -> ~ In slash_chr (inp s) ->
  (pc s = fsm_state_code_char -> exists a, c s = chr a) ->
  text (steps n s) = text s /\ ~ In slash_chr (inp (steps n s)).
Proof.
  revert s. induction n as [|n IH]; intros s Hl Hi Hc; [now split|].
  rewrite steps_S.
  destruct (text_step s Hl Hi Hc) as (Ht & Hl' & Hi' & Hc').
  rewrite <- Ht. now apply IH.
Qed.

(** X4: An input without any slash is copied unchanged, whatever quotes and
    backslashes it holds and whether or not its literals are closed. *)
Theorem uncomment_without_slash (input : list ascii)
  (Hslash : ~ In slash_chr input) :
  uncomment input = Some input.
Proof.
  destruct (exec_total (init input)) as [o Ho].
  rewrite (proj2 (uncomment_exec input o) Ho). f_equal.
  destruct Ho as (s & [n Hn] & Hpc & Ho). subst s o.
  destruct (text_steps n (init input)) as [Ht _];
    [cbn; intuition discriminate | exact Hslash | discriminate|].
  unfold text, pending in Ht. rewrite Hpc in Ht.
  rewrite (exit_input_exhausted input n Hpc) in Ht.
  now rewrite !app_nil_r in Ht.
Qed.

Lemma uncomment_without_slash_witness :
  uncomment (list_ascii_of_string "puts('\'' * 3) + 'unclosed") =
  Some (list_ascii_of_string "puts('\'' * 3) + 'unclosed").
Proof.
  apply uncomment_without_slash. apply absent_not_In. reflexivity.
Defined.

(** ** Pieces of input *)

Lemma step_code_any_c (x x' : Z) (i o : list ascii) :
  step (Config fsm_state_code x i o) = step (Config fsm_state_code x' i o).
Proof. reflexivity. Qed.

Lemma exec_code_any_c (x x' : Z) (i o r : list ascii) :
  exec (Config fsm_state_code x i o) r ->
  exec (Config fsm_state_code x' i o) r.
Proof.
  intros (s & [n Hn] & Hpc & Ho). exists s. split; [|now split].
  destruct n as [|n]; [subst s; discriminate|].
  exists (S n). rewrite steps_S in *. now rewrite (step_code_any_c x' x).
Qed.

Lemma step_prepend (o : list ascii) (s : config) :
  step (prepend o s) = prepend o (step s).
Proof.
  destruct s as [l x i o']. unfold prepend, step, fputc; cbn [pc c inp out].
  destruct l; try reflexivity;
    try (destruct (fgetc i) as [c' in']);
    repeat match goal with
           | |- context [if ?b then _ else _] => destruct b
           end; cbn [pc c inp out]; rewrite ?app_assoc; reflexivity.
Qed.

Lemma steps_prepend (o : list ascii) (n : nat) (s : config) :
  steps n (prepend o s) = prepend o (steps n s).
Proof.
  revert s. induction n as [|n IH]; intros s; [reflexivity|].
  now rewrite !steps_S, step_prepend, IH.
Qed.

Lemma exec_prepend (o : list ascii) (s : config) (r : list ascii) :
  exec s r -> exec (prepend o s) (o ++ r).
Proof.
  intros (s' & [n Hn] & Hpc & Ho). exists (prepend o s').
  split; [exists n; now rewrite steps_prepend, Hn|].
  split; [exact Hpc | cbn; now rewrite Ho].
Qed.

Lemma at_code_extend (pre o post : list ascii) :
  at_code pre o ->
  exists x, reach (init (pre ++ post)) (Config fsm_state_code x post o).
Proof.
  intros (x & n & Hn). exists x, n.
  change (init (pre ++ post)) with (extend post (init pre)).
  rewrite steps_extend; rewrite Hn; [reflexivity | discriminate].
Qed.

Lemma at_code_output (pre o : list ascii) :
  at_code pre o -> uncomment pre = Some o.
Proof.
  intros (x & Hx). apply uncomment_exec.
  eapply exec_reach; [exact Hx | apply exec_code_eof].
Qed.

Lemma plain_at_code (pre : list ascii) : plain pre -> at_code pre pre.
Proof.
  intros Hp.
  destruct (code_copies_plain pre [] Hp 0 []) as [x Hx].
  rewrite app_nil_r in Hx. exists x.
  apply reach_step_l. exact Hx.
Qed.

Lemma uncomment_cut (pre o post : list ascii) :
  at_code pre o ->
  uncomment (pre ++ post) = option_map (app o) (uncomment post).
Proof.
  intros Hpre.
  destruct (exec_total (init post)) as [r Hr].
  rewrite (proj2 (uncomment_exec post r) Hr). cbn [option_map].
  apply uncomment_exec.
  destruct (at_code_extend pre o post Hpre) as [x Hx].
  eapply exec_reach; [exact Hx|].
  apply (exec_code_any_c 0).
  assert (Hc : exec (Config fsm_state_code 0 post []) r).
  { destruct Hr as (s & [n Hn] & Hpc & Ho).
    destruct n as [|n]; [subst s; discriminate|].
    rewrite steps_S in Hn. exists s. split; [now exists n | now split]. }
  apply (exec_prepend o) in Hc. unfold prepend in Hc; cbn [pc c inp out] in Hc.
  now rewrite app_nil_r in Hc.
Qed.

(** X3: where the machine is back at [fsm_state_code], the input can be
    cut: the output for the whole is the output for the part in front
    followed by the output for the part behind. *)
Theorem uncomment_app (pre o post : list ascii)
  (Hpre : at_code pre o) :
  uncomment pre = Some o /\
  uncomment (pre ++ post) = option_map (app o) (uncomment post).
Proof.
  split; [now apply at_code_output | now apply uncomment_cut].
Qed.

Lemma uncomment_app_witness :
  uncomment (list_ascii_of_string "a = 'x'; ") =
    Some (list_ascii_of_string "a = 'x'; ") /\
  uncomment (list_ascii_of_string "a = 'x'; " ++ list_ascii_of_string "b /* c */") =
    option_map (app (list_ascii_of_string "a = 'x'; "))
               (uncomment (list_ascii_of_string "b /* c */")).
Proof.
  apply uncomment_app.
  exists (chr " "). exists 17%nat. vm_compute. reflexivity.
Defined.

(** ** Comments *)

Lemma line_comment_skips (body r : list ascii) :
  ~ In newline body ->
  forall x o, exists x',
    reach (Config fsm_state_line_comment x (body ++ r) o)
          (Config fsm_state_line_comment x' r o).
Proof.
  induction body as [|a body IH]; intros Hb x o.
  - exists x. apply reach_refl.
  - cbn [In] in Hb.
    destruct (IH (fun H => Hb (or_intror H)) (chr a) o) as [x' Hx'].
    exists x'. cbn [app]. apply reach_step_l.
    rewrite step_line_comment_other by (intros ->; tauto). exact Hx'.
Qed.

Lemma step_block_comment_other x a r o :
  a <> star_chr ->
  step (Config fsm_state_block_comment x (a :: r) o) =
  Config fsm_state_block_comment (chr a) r o.
Proof.
  intros H. block. apply Ascii.eqb_neq in H. now rewrite H.
Qed.

Lemma step_star_other x a r o :
  a <> slash_chr ->
  step (Config fsm_state_star x (a :: r) o) =
  Config fsm_state_block_comment (chr a) r o.
Proof.
  intros H. block. apply Ascii.eqb_neq in H. now rewrite H.
Qed.

Lemma block_comment_skips (body r : list ascii) :
  comment_body body ->
  forall x o, exists x',
    reach (Config fsm_state_block_comment x (body ++ r) o)
          (Config fsm_state_block_comment x' r o).
Proof.
  induction 1 as [|a b Ha _ IH|a b Ha _ IH]; intros x o.
  - exists x. apply reach_refl.
  - destruct (IH (chr a) o) as [x' Hx']. exists x'. cbn [app].
    apply reach_step_l. now rewrite step_block_comment_other.
  - destruct (IH (chr a) o) as [x' Hx']. exists x'. cbn [app].
    do 2 apply reach_step_l.
    change (step (Config fsm_state_block_comment x (star_chr :: a :: b ++ r) o))
      with (Config fsm_state_star (chr star_chr) (a :: b ++ r) o).
    now rewrite step_star_other.
Qed.

Lemma comment_body_app (b1 b2 : list ascii) :
  comment_body b1 -> comment_body b2 -> comment_body (b1 ++ b2).
Proof.
  induction 1 as [|a b Ha _ IH|a b Ha _ IH]; intros H2; cbn [app].
  - assumption.
  - apply comment_char; auto.
  - apply comment_star; auto.
Qed.

(** X5: From the two slashes to the end of the line, the newline included, a
    line comment leaves no trace: the output is the one for the input
    without it.  A line comment that the input ends in is dropped too.
    The comment may hold anything but a newline. *)
Theorem line_comment_removed (pre o body post : list ascii)
  (Hpre : at_code pre o) (Hbody : ~ In newline body) :
  uncomment (pre ++ slash_chr :: slash_chr :: body ++ newline :: post) =
    uncomment (pre ++ post) /\
  uncomment (pre ++ slash_chr :: slash_chr :: body) = Some o.
Proof.
  split.
  - destruct (at_code_extend pre o post Hpre) as [x Hx].
    destruct (exec_total (Config fsm_state_code x post o)) as [r Hr].
    rewrite (proj2 (uncomment_exec (pre ++ post) r))
      by (eapply exec_reach; eassumption).
    apply uncomment_exec.
    destruct (at_code_extend pre o
                (slash_chr :: slash_chr :: body ++ newline :: post) Hpre)
      as [y Hy].
    eapply exec_reach; [exact Hy|]. do 2 apply exec_step.
    change (step (step (Config fsm_state_code y
              (slash_chr :: slash_chr :: body ++ newline :: post) o)))
      with (Config fsm_state_line_comment (chr slash_chr)
              (body ++ newline :: post) o).
    destruct (line_comment_skips body (newline :: post) Hbody
                (chr slash_chr) o) as [z Hz].
    eapply exec_reach; [exact Hz|]. apply exec_step.
    rewrite step_line_comment_newline.
    now apply (exec_code_any_c x).
  - apply uncomment_exec.
    destruct (at_code_extend pre o (slash_chr :: slash_chr :: body) Hpre)
      as [y Hy].
    eapply exec_reach; [exact Hy|]. do 2 apply exec_step.
    change (step (step (Config fsm_state_code y
              (slash_chr :: slash_chr :: body) o)))
      with (Config fsm_state_line_comment (chr slash_chr) body o).
    destruct (line_comment_skips body [] Hbody (chr slash_chr) o) as [z Hz].
    rewrite app_nil_r in Hz. eapply exec_reach; [exact Hz|].
    apply exec_step. now apply exec_exit.
Qed.

Lemma line_comment_removed_witness :
  uncomment (list_ascii_of_string "x = 1; // set 'x' /* here */"
               ++ newline :: list_ascii_of_string "y") =
    uncomment (list_ascii_of_string "x = 1; " ++ list_ascii_of_string "y") /\
  uncomment (list_ascii_of_string "x = 1; // set 'x' /* here */") =
    Some (list_ascii_of_string "x = 1; ").
Proof.
  refine (line_comment_removed (list_ascii_of_string "x = 1; ")
            (list_ascii_of_string "x = 1; ")
            (list_ascii_of_string " set 'x' /* here */")
            (list_ascii_of_string "y") _ _).
  - apply plain_at_code. repeat split; apply absent_not_In; reflexivity.
  - apply absent_not_In. reflexivity.
Defined.

Lemma block_comment_open (pre o body : list ascii) :
  at_code pre o -> comment_body body ->
  uncomment (pre ++ slash_chr :: star_chr :: body) = Some o.
Proof.
  intros Hpre Hbody. apply uncomment_exec.
  destruct (at_code_extend pre o (slash_chr :: star_chr :: body) Hpre)
    as [y Hy].
  eapply exec_reach; [exact Hy|]. do 2 apply exec_step.
  change (step (step (Config fsm_state_code y
            (slash_chr :: star_chr :: body) o)))
    with (Config fsm_state_block_comment (chr star_chr) body o).
  destruct (block_comment_skips body [] Hbody (chr star_chr) o) as [z Hz].
  rewrite app_nil_r in Hz. eapply exec_reach; [exact Hz|].
  apply exec_step. now apply exec_exit.
Qed.

(** X6: A block comment is removed with its two delimiters when its text is
    a [comment_body]; one that the input ends in, with or without a last
    star, is dropped.  Quotes and slashes inside do not matter. *)
Theorem block_comment_removed (pre o body post : list ascii)
  (Hpre : at_code pre o) (Hbody : comment_body body) :
  uncomment (pre ++ slash_chr :: star_chr :: body
                 ++ star_chr :: slash_chr :: post) =
    uncomment (pre ++ post) /\
  uncomment (pre ++ slash_chr :: star_chr :: body) = Some o /\
  uncomment (pre ++ slash_chr :: star_chr :: body ++ [star_chr]) = Some o.
Proof.
  split; [|split].
  - destruct (at_code_extend pre o post Hpre) as [x Hx].
    destruct (exec_total (Config fsm_state_code x post o)) as [r Hr].
    rewrite (proj2 (uncomment_exec (pre ++ post) r))
      by (eapply exec_reach; eassumption).
    apply uncomment_exec.
    destruct (at_code_extend pre o
                (slash_chr :: star_chr :: body
                   ++ star_chr :: slash_chr :: post) Hpre) as [y Hy].
    eapply exec_reach; [exact Hy|]. do 2 apply exec_step.
    change (step (step (Config fsm_state_code y
              (slash_chr :: star_chr :: body
                 ++ star_chr :: slash_chr :: post) o)))
      with (Config fsm_state_block_comment (chr star_chr)
              (body ++ star_chr :: slash_chr :: post) o).
    destruct (block_comment_skips body (star_chr :: slash_chr :: post) Hbody
                (chr star_chr) o) as [z Hz].
    eapply exec_reach; [exact Hz|]. do 2 apply exec_step.
    change (step (step (Config fsm_state_block_comment z
              (star_chr :: slash_chr :: post) o)))
      with (Config fsm_state_code (chr slash_chr) post o).
    now apply (exec_code_any_c x).
  - now apply block_comment_open.
  - apply uncomment_exec.
    destruct (at_code_extend pre o
                (slash_chr :: star_chr :: body ++ [star_chr]) Hpre)
      as [y Hy].
    eapply exec_reach; [exact Hy|]. do 2 apply exec_step.
    change (step (step (Config fsm_state_code y
              (slash_chr :: star_chr :: body ++ [star_chr]) o)))
      with (Config fsm_state_block_comment (chr star_chr)
              (body ++ [star_chr]) o).
    destruct (block_comment_skips body [star_chr] Hbody (chr star_chr) o)
      as [z Hz].
    eapply exec_reach; [exact Hz|].
    do 2 apply exec_step. now apply exec_exit.
Qed.

Lemma block_comment_removed_witness :
  uncomment (list_ascii_of_string "f(a /* the 'first' // arg */, b)") =
  uncomment (list_ascii_of_string "f(a , b)").
Proof.
  refine (proj1 (block_comment_removed (list_ascii_of_string "f(a ")
            (list_ascii_of_string "f(a ")
            (list_ascii_of_string " the 'first' // arg ")
            (list_ascii_of_string ", b)") _ _)).
  - apply plain_at_code. repeat split; apply absent_not_In; reflexivity.
  - repeat (apply comment_char; [unfold star_chr; discriminate|]).
    apply comment_nil.
Defined.

Lemma block_comment_closed (pre o body post : list ascii) :
  at_code pre o -> comment_body body ->
  uncomment (pre ++ slash_chr :: star_chr :: body
                 ++ star_chr :: slash_chr :: post) =
  uncomment (pre ++ post).
Proof.
  intros Hpre Hbody.
  destruct (at_code_extend pre o post Hpre) as [x Hx].
  destruct (exec_total (Config fsm_state_code x post o)) as [r Hr].
  rewrite (proj2 (uncomment_exec (pre ++ post) r))
    by (eapply exec_reach; eassumption).
  apply uncomment_exec.
  destruct (at_code_extend pre o
              (slash_chr :: star_chr :: body
                 ++ star_chr :: slash_chr :: post) Hpre) as [y Hy].
  eapply exec_reach; [exact Hy|]. do 2 apply exec_step.
  change (step (step (Config fsm_state_code y
            (slash_chr :: star_chr :: body
               ++ star_chr :: slash_chr :: post) o)))
    with (Config fsm_state_block_comment (chr star_chr)
            (body ++ star_chr :: slash_chr :: post) o).
  destruct (block_comment_skips body (star_chr :: slash_chr :: post) Hbody
              (chr star_chr) o) as [z Hz].
  eapply exec_reach; [exact Hz|]. do 2 apply exec_step.
  change (step (step (Config fsm_state_block_comment z
            (star_chr :: slash_chr :: post) o)))
    with (Config fsm_state_code (chr slash_chr) post o).
  now apply (exec_code_any_c x).
Qed.

(** An even number of stars is a [comment_body]: each second star takes
    the machine back into the comment. *)
Lemma comment_body_stars (k : nat) : comment_body (repeat star_chr (2 * k)).
Proof.
  induction k as [|k IH]; [apply comment_nil|].
  replace (2 * S k)%nat with (S (S (2 * k))) by lia. cbn [repeat].
  apply comment_star; [unfold slash_chr, star_chr; discriminate | exact IH].
Qed.

(** X7: inside a block comment whose text so far is a [comment_body]
    (characters other than a star, and stars each followed by a character
    other than a slash), it is the number of stars in front of a slash
    that decides: behind an odd number of stars the slash closes the
    comment, behind an even number, two for one, it does not, since every
    second star takes the machine back into the comment.  A comment that
    is not closed in this way, and whose rest is a [comment_body] again,
    swallows the rest of the input. *)
Theorem block_comment_star_parity (pre o body : list ascii)
  (Hpre : at_code pre o) (Hbody : comment_body body) :
  (forall k post,
     uncomment (pre ++ slash_chr :: star_chr :: body
                    ++ repeat star_chr (2 * k + 1) ++ slash_chr :: post) =
     uncomment (pre ++ post)) /\
  (forall k rest,
     comment_body rest ->
     uncomment (pre ++ slash_chr :: star_chr :: body
                    ++ repeat star_chr (2 * k) ++ slash_chr :: rest) =
     Some o).
Proof.
  split.
  - intros k post.
    replace (body ++ repeat star_chr (2 * k + 1) ++ slash_chr :: post)
      with ((body ++ repeat star_chr (2 * k))
              ++ star_chr :: slash_chr :: post)
      by (rewrite repeat_app, <- !app_assoc; reflexivity).
    apply (block_comment_closed pre o); [assumption|].
    apply comment_body_app; [assumption | apply comment_body_stars].
  - intros k rest Hrest.
    apply (block_comment_open pre o
             (body ++ repeat star_chr (2 * k) ++ slash_chr :: rest) Hpre).
    apply comment_body_app; [assumption|].
    apply comment_body_app; [apply comment_body_stars|].
    apply comment_char; [unfold slash_chr, star_chr; discriminate|].
    assumption.
Qed.

Lemma block_comment_star_parity_witness :
  uncomment (list_ascii_of_string "a; /* x ***/ b;") =
    uncomment (list_ascii_of_string "a;  b;") /\
  uncomment (list_ascii_of_string "a; /* x **/ b;") =
    Some (list_ascii_of_string "a; ").
Proof.
  assert (Hpre : at_code (list_ascii_of_string "a; ")
                         (list_ascii_of_string "a; ")).
  { apply plain_at_code. repeat split; apply absent_not_In; reflexivity. }
  assert (Hbody : comment_body (list_ascii_of_string " x ")).
  { repeat (apply comment_char; [unfold star_chr; discriminate|]).
    apply comment_nil. }
  destruct (block_comment_star_parity (list_ascii_of_string "a; ")
              (list_ascii_of_string "a; ") (list_ascii_of_string " x ")
              Hpre Hbody) as [Hodd Heven].
  split.
  - exact (Hodd 1%nat (list_ascii_of_string " b;")).
  - apply (Heven 1%nat (list_ascii_of_string " b;")).
    repeat (apply comment_char; [unfold star_chr; discriminate|]).
    apply comment_nil.
Defined.

(** ** More on literals *)









(** ** Running [uncomment] on its own output *)

Lemma dispatch_cases (a : ascii) :
  (a = dquote /\ dispatch a = fsm_state_string) \/
  (a = squote /\ dispatch a = fsm_state_literal) \/
  (a <> dquote /\ a <> squote /\ dispatch a = fsm_state_code).
Proof.
  unfold dispatch. destruct (Ascii.eqb_spec a dquote) as [-> | Hd]; [auto|].
  destruct (Ascii.eqb_spec a squote) as [-> | Hs]; auto.
Qed.

Lemma feed_code_char (a : ascii) x o :
  a <> slash_chr ->
  reach (Config fsm_state_code x [a] o)
        (Config (dispatch a) (chr a) [] (o ++ [a])).
Proof.
  intros H. do 2 apply reach_step_l.
  rewrite step_code_other, step_code_char by assumption. apply reach_refl.
Qed.

Lemma feed_slash_char (a : ascii) x o :
  a <> slash_chr -> a <> star_chr ->
  reach (Config fsm_state_slash x [a] o)
        (Config (dispatch a) (chr a) [] (o ++ [slash_chr; a])).
Proof.
  intros H1 H2. do 2 apply reach_step_l.
  rewrite step_slash_other, step_code_char, <- app_assoc by assumption.
  apply reach_refl.
Qed.

Lemma feed_escape (l : label) (b : ascii) x o :
  l = fsm_state_string \/ l = fsm_state_literal ->
  reach (Config l x [backslash; b] o)
        (Config fsm_state_literal (chr b) [] (o ++ [backslash; b])).
Proof.
  intros [-> | ->]; do 2 apply reach_step_l.
  - rewrite step_string_backslash, step_escaped_backslash. apply reach_refl.
  - rewrite step_literal_backslash, step_escaped_backslash. apply reach_refl.
Qed.

Lemma feed_backslash (l : label) x o :
  l = fsm_state_string \/ l = fsm_state_literal ->
  reach (Config l x [backslash] o)
        (Config fsm_state_escaped (chr backslash) [] o).
Proof.
  intros [-> | ->]; apply reach_step_l.
  - rewrite step_string_backslash. apply reach_refl.
  - rewrite step_literal_backslash. apply reach_refl.
Qed.

Lemma follows_not_exit (s1 s2 : config) :
  follows s1 s2 -> pc s2 <> fsm_exit.
Proof.
  intros (_ & _ & H) E. rewrite E in H. destruct (pc s1);
    try discriminate.
  - destruct H as (a & Hc & [[H Ha] | [H Ha]]); discriminate.
  - destruct H as (Hc & [H | H]); discriminate.
  - destruct H as [H | [H | [H | H]]]; discriminate.
Qed.

(** When the writer runs one block, the reader can read what the block
    wrote and stand to the writer as before. *)
Lemma follows_step (s1 s2 : config) :
  follows s1 s2 ->
  exists t s2',
    out (step s1) = out s1 ++ t /\ reach (extend t s2) s2' /\
    follows (step s1) s2'.
Proof.
  destruct s1 as [l1 x1 i1 o1], s2 as [l2 x2 i2 o2].
  unfold follows; cbn [pc c inp out]. intros (-> & Ho & Hm).
  (* the cases in which the block writes nothing *)
  assert (Quiet : forall s1',
    out s1' = o1 ->
    match pc s1' with
    | fsm_state_code_char =>
        exists a, c s1' = chr a /\
          ((l2 = fsm_state_code /\ a <> slash_chr) \/
           (l2 = fsm_state_slash /\ a <> slash_chr /\ a <> star_chr))
    | fsm_state_string => l2 = fsm_state_string
    | fsm_state_literal => l2 = fsm_state_literal
    | fsm_state_escaped =>
        c s1' = chr backslash /\
        (l2 = fsm_state_string \/ l2 = fsm_state_literal)
    | fsm_exit =>
        l2 = fsm_state_code \/ l2 = fsm_state_string \/
        l2 = fsm_state_literal \/ l2 = fsm_state_escaped
    | _ => l2 = fsm_state_code
    end ->
    exists t s2',
      out s1' = o1 ++ t /\
      reach (extend t (Config l2 x2 [] o2)) s2' /\
      inp s2' = [] /\ out s2' ++ pending s2' = out s1' /\
      match pc s1' with
      | fsm_state_code_char =>
          exists a, c s1' = chr a /\
            ((pc s2' = fsm_state_code /\ a <> slash_chr) \/
             (pc s2' = fsm_state_slash /\ a <> slash_chr /\ a <> star_chr))
      | fsm_state_string => pc s2' = fsm_state_string
      | fsm_state_literal => pc s2' = fsm_state_literal
      | fsm_state_escaped =>
          c s1' = chr backslash /\
          (pc s2' = fsm_state_string \/ pc s2' = fsm_state_literal)
      | fsm_exit =>
          pc s2' = fsm_state_code \/ pc s2' = fsm_state_string \/
          pc s2' = fsm_state_literal \/ pc s2' = fsm_state_escaped
      | _ => pc s2' = fsm_state_code
      end).
  { intros s1' Hout Hmode. exists [], (Config l2 x2 [] o2).
    split; [now rewrite app_nil_r|]. split; [apply reach_refl|].
    split; [reflexivity|]. split; [now rewrite Hout | exact Hmode]. }
  destruct l1.
  - (* START *) apply Quiet; [reflexivity | exact Hm].
  - (* code *)
    destruct i1 as [|a r]; [apply Quiet; [reflexivity | now left]|].
    destruct (Ascii.eqb_spec a slash_chr) as [-> | Ha].
    + apply Quiet; [reflexivity | exact Hm].
    + rewrite step_code_other by assumption.
      apply Quiet; [reflexivity|]. cbn [pc c]. exists a. auto.
  - (* code_char *)
    destruct Hm as (a & -> & Hm). rewrite step_code_char. cbn [out pc].
    exists [a].
    destruct Hm as [[-> Ha] | [-> [Ha Hs]]]; unfold pending in Ho;
      cbn [pc] in Ho; unfold extend; cbn [pc c inp out app].
    + rewrite app_nil_r in Ho. subst o2.
      exists (Config (dispatch a) (chr a) [] (o1 ++ [a])).
      split; [reflexivity|]. split; [now apply feed_code_char|].
      cbn [inp out pc]. split; [reflexivity|]. unfold pending; cbn [pc].
      destruct (dispatch_cases a) as [[_ ->] | [[_ ->] | (_ & _ & ->)]];
        (split; [now rewrite app_nil_r | reflexivity]).
    + subst o1.
      exists (Config (dispatch a) (chr a) [] (o2 ++ [slash_chr; a])).
      split; [reflexivity|]. split; [now apply feed_slash_char|].
      cbn [inp out pc]. split; [reflexivity|]. unfold pending; cbn [pc].
      destruct (dispatch_cases a) as [[_ ->] | [[_ ->] | (_ & _ & ->)]];
        (split; [now rewrite app_nil_r, <- app_assoc | reflexivity]).
  - (* slash *)
    destruct i1 as [|a r]; [apply Quiet; [reflexivity | now left]|].
    destruct (Ascii.eqb_spec a slash_chr) as [-> | Ha];
      [apply Quiet; [reflexivity | exact Hm]|].
    destruct (Ascii.eqb_spec a star_chr) as [-> | Hs];
      [apply Quiet; [reflexivity | exact Hm]|].
    rewrite step_slash_other by assumption. cbn [out pc c]. subst l2.
    unfold pending in Ho; cbn [pc] in Ho. rewrite app_nil_r in Ho. subst o2.
    exists [slash_chr], (Config fsm_state_slash (chr slash_chr) [] o1).
    split; [reflexivity|]. split; [apply reach_step|].
    cbn [inp out pc]. split; [reflexivity|]. split; [reflexivity|].
    exists a. auto.
  - (* string *)
    subst l2. unfold pending in Ho; cbn [pc] in Ho.
    rewrite app_nil_r in Ho. subst o2.
    destruct i1 as [|a r]; [apply Quiet; [reflexivity | cbn; auto]|].
    destruct (Ascii.eqb_spec a backslash) as [-> | Hb];
      [apply Quiet; [reflexivity | cbn; auto]|].
    destruct (Ascii.eqb_spec a dquote) as [-> | Hd].
    + rewrite step_string_dquote. cbn [out pc c].
      exists [dquote], (Config fsm_state_code (chr dquote) [] (o1 ++ [dquote])).
      split; [reflexivity|]. split; [apply reach_step|].
      cbn. now rewrite app_nil_r.
    + rewrite step_string_other by assumption. cbn [out pc c].
      exists [a], (Config fsm_state_string (chr a) [] (o1 ++ [a])).
      split; [reflexivity|]. split.
      * apply reach_step_l. unfold extend; cbn [pc c inp out app].
        rewrite step_string_other by assumption. apply reach_refl.
      * cbn. now rewrite app_nil_r.
  - (* literal *)
    subst l2. unfold pending in Ho; cbn [pc] in Ho.
    rewrite app_nil_r in Ho. subst o2.
    destruct i1 as [|a r]; [apply Quiet; [reflexivity | cbn; auto]|].
    destruct (Ascii.eqb_spec a backslash) as [-> | Hb];
      [apply Quiet; [reflexivity | cbn; auto]|].
    destruct (Ascii.eqb_spec a squote) as [-> | Hd].
    + rewrite step_literal_squote. cbn [out pc c].
      exists [squote], (Config fsm_state_code (chr squote) [] (o1 ++ [squote])).
      split; [reflexivity|]. split; [apply reach_step|].
      cbn. now rewrite app_nil_r.
    + rewrite step_literal_other by assumption. cbn [out pc c].
      exists [a], (Config fsm_state_literal (chr a) [] (o1 ++ [a])).
      split; [reflexivity|]. split.
      * apply reach_step_l. unfold extend; cbn [pc c inp out app].
        rewrite step_literal_other by assumption. apply reach_refl.
      * cbn. now rewrite app_nil_r.
  - (* escaped *)
    destruct Hm as [-> Hl2].
    assert (Ho2 : o2 = o1).
    { unfold pending in Ho. destruct Hl2 as [-> | ->]; cbn [pc] in Ho;
        now rewrite app_nil_r in Ho. }
    subst o2. destruct i1 as [|b r].
    + exists [backslash], (Config fsm_state_escaped (chr backslash) [] o1).
      split; [reflexivity|]. split; [now apply feed_backslash|].
      cbn. auto 6.
    + rewrite step_escaped_backslash. cbn [out pc c].
      exists [backslash; b],
        (Config fsm_state_literal (chr b) [] (o1 ++ [backslash; b])).
      split; [reflexivity|]. split; [now apply feed_escape|].
      cbn. now rewrite app_nil_r.
  - (* line_comment *)
    destruct i1 as [|a r]; [apply Quiet; [reflexivity | now left]|].
    destruct (Ascii.eqb_spec a newline) as [-> | Ha];
      [apply Quiet; [reflexivity | exact Hm]|].
    rewrite step_line_comment_other by assumption.
    apply Quiet; [reflexivity | exact Hm].
  - (* block_comment *)
    destruct i1 as [|a r]; [apply Quiet; [reflexivity | now left]|].
    destruct (Ascii.eqb_spec a star_chr) as [-> | Ha];
      [apply Quiet; [reflexivity | exact Hm]|].
    rewrite step_block_comment_other by assumption.
    apply Quiet; [reflexivity | exact Hm].
  - (* star *)
    destruct i1 as [|a r]; [apply Quiet; [reflexivity | now left]|].
    destruct (Ascii.eqb_spec a slash_chr) as [-> | Ha];
      [apply Quiet; [reflexivity | exact Hm]|].
    rewrite step_star_other by assumption.
    apply Quiet; [reflexivity | exact Hm].
  - (* fsm_exit *) apply Quiet; [reflexivity | exact Hm].
Qed.

Lemma follows_steps (input : list ascii) (n : nat) :
  exists s2,
    reach (init (out (steps n (init input)))) s2 /\
    follows (steps n (init input)) s2.
Proof.
  induction n as [|n IH].
  - exists (Config fsm_state_code 0 [] []). split.
    + apply reach_step.
    + unfold follows. cbn. auto.
  - destruct IH as (s2 & [k Hk] & Hf).
    change (steps (S n) (init input)) with (step (steps n (init input))).
    destruct (follows_step _ _ Hf) as (t & s2' & Ht & Hr & Hf').
    exists s2'. split; [|exact Hf'].
    rewrite Ht. apply reach_trans with (extend t s2); [|exact Hr].
    exists k.
    change (init (out (steps n (init input)) ++ t))
      with (extend t (init (out (steps n (init input))))).
    rewrite steps_extend; rewrite Hk;
      [reflexivity | now apply (follows_not_exit _ _ Hf)].
Qed.

(** X2: [uncomment] leaves its own output unchanged: removing comments twice
    gives what removing them once gives. *)
Theorem uncomment_idempotent (input : list ascii) :
  exists o, uncomment input = Some o /\ uncomment o = Some o.
Proof.
  destruct (exec_total (init input)) as [o Ho]. exists o.
  split; [now apply uncomment_exec|].
  apply uncomment_exec.
  destruct Ho as (s1 & [n Hn] & Hpc & Ho).
  destruct (follows_steps input n) as (s2 & Hr & Hf).
  rewrite Hn in Hr, Hf. rewrite Ho in Hr.
  eapply exec_reach; [exact Hr|].
  destruct s2 as [l2 x2 i2 o2]. unfold follows in Hf.
  rewrite Hpc, Ho in Hf. cbn [pc c inp out] in Hf.
  destruct Hf as (-> & Hout & Hl). unfold pending in Hout; cbn [pc c] in Hout.
  apply exec_step.
  rewrite <- Hout.
  destruct Hl as [-> | [-> | [-> | ->]]]; rewrite ?app_nil_r;
    match goal with |- exec ?s _ => exact (exec_exit s eq_refl) end.
Qed.

(** * The integer parser *)

Module NumbersFacts.
Import Numbers.

(** ** Runs *)

Lemma parse_run_exit (IM : Z) (n : nat) (s : state) :
  pc s = fsm_exit -> run IM n s = Some (Ok s).
Proof.
  intros H. destruct n; cbn [run]; now destruct (label_eq_dec (pc s) fsm_exit).
Qed.

Lemma parse_run_mono (IM : Z) (n : nat) :
  forall (s : state) (r : res state) (m : nat),
    run IM n s = Some r -> (n <= m)%nat -> run IM m s = Some r.
Proof.
  induction n as [|n IH]; intros s r m H Hm; cbn [run] in H.
  - destruct (label_eq_dec (pc s) fsm_exit) as [E|E]; [|discriminate].
    now rewrite parse_run_exit.
  - destruct (label_eq_dec (pc s) fsm_exit) as [E|E].
    + now rewrite parse_run_exit.
    + destruct m as [|m]; [lia|]. cbn [run].
      destruct (label_eq_dec (pc s) fsm_exit) as [E'|_]; [contradiction|].
      destruct (step IM s) as [s'|f]; [|assumption].
      apply IH; [assumption | lia].
Qed.

Lemma parse_exec_exit (IM : Z) (s : state) :
  pc s = fsm_exit -> exec IM s (Ok s).
Proof.
  intros H. exists O. now apply parse_run_exit.
Qed.

Lemma parse_exec_step (IM : Z) (s s' : state) (r : res state) :
  pc s <> fsm_exit -> step IM s = Ok s' -> exec IM s' r -> exec IM s r.
Proof.
  intros Hpc Hs [n Hn]. exists (S n). cbn [run].
  destruct (label_eq_dec (pc s) fsm_exit) as [E|_]; [contradiction|].
  now rewrite Hs.
Qed.

Lemma parse_exec_fault (IM : Z) (s : state) (f : fault) :
  pc s <> fsm_exit -> step IM s = Undefined f -> exec IM s (Undefined f).
Proof.
  intros Hpc Hs. exists 1%nat. cbn [run].
  destruct (label_eq_dec (pc s) fsm_exit) as [E|_]; [contradiction|].
  now rewrite Hs.
Qed.

Lemma parse_exec_det (IM : Z) (s : state) (r1 r2 : res state) :
  exec IM s r1 -> exec IM s r2 -> r1 = r2.
Proof.
  intros [n Hn] [m Hm].
  apply (parse_run_mono IM n s r1 (n + m)) in Hn; [|lia].
  apply (parse_run_mono IM m s r2 (n + m)) in Hm; [|lia].
  congruence.
Qed.

(** ** Termination *)

Lemma parse_step_measure (IM : Z) (s s' : state) :
  pc s <> fsm_exit -> step IM s = Ok s' -> (measure s' < measure s)%nat.
Proof.
  destruct s as [l p n sg e]. intros Hpc. unfold step; cbn [pc cur num sign err].
  destruct l; try contradiction;
    (destruct p as [|a p]; cbn [deref bind tl]; [discriminate|]);
    repeat match goal with
           | |- context [if ?b then _ else _] => destruct b
           | |- context [deref ?q] =>
               destruct q; cbn [deref bind tl]; try discriminate
           | |- context [int ?i ?z] =>
               destruct (int i z); cbn [bind]; try discriminate
           end;
    intros H; injection H as <-; unfold measure; cbn [pc cur List.length];
    lia.
Qed.

Lemma parse_run_total (IM : Z) (n : nat) :
  forall s, (measure s <= n)%nat -> exists r, run IM n s = Some r.
Proof.
  induction n as [|n IH]; intros s H; cbn [run];
    destruct (label_eq_dec (pc s) fsm_exit) as [E|E]; try (now eexists).
  - destruct s as [[] p k sg e]; cbn in *; try lia. contradiction.
  - destruct (step IM s) as [s'|f] eqn:Hs; [|now eexists].
    apply IH. pose proof (parse_step_measure IM s s' E Hs). lia.
Qed.

Lemma parse_run_bound (IM : Z) (input : list ascii) (r : res state) :
  exec IM (start input) r ->
  run IM (blocks_bound input) (start input) = Some r.
Proof.
  intros He.
  destruct (parse_run_total IM (blocks_bound input) (start input)) as [r' Hr'].
  { unfold measure, start, blocks_bound. cbn [pc cur].
    rewrite length_app. cbn. lia. }
  rewrite Hr'. f_equal. apply (parse_exec_det IM (start input)); [|assumption].
  now exists (blocks_bound input).
Qed.

(** A property that every block keeps holds where a run ends, and held
    where a run ran into undefined behaviour. *)
Lemma parse_run_invariant (IM : Z) (P : state -> Prop) :
  (forall s s', P s -> pc s <> fsm_exit -> step IM s = Ok s' -> P s') ->
  forall n s r, P s -> run IM n s = Some r ->
    match r with
    | Ok s' => P s' /\ pc s' = fsm_exit
    | Undefined f =>
        exists s0, P s0 /\ pc s0 <> fsm_exit /\ step IM s0 = Undefined f
    end.
Proof.
  intros Hstep. induction n as [|n IH]; intros s r HP H; cbn [run] in H;
    destruct (label_eq_dec (pc s) fsm_exit) as [E|E]; try discriminate;
    try (injection H as <-; now split).
  destruct (step IM s) as [s'|f] eqn:Hs.
  - apply (IH s'); [now apply (Hstep s) | assumption].
  - injection H as <-. now exists s.
Qed.

(** ** Digits *)

Lemma int_in_range (IM z : Z) :
  - IM - 1 <= z <= IM -> int IM z = Ok z.
Proof.
  intros H. unfold int, INT_MIN.
  destruct (Z.leb_spec (- IM - 1) z); [|lia].
  destruct (Z.leb_spec z IM); [reflexivity | lia].
Qed.

Lemma int_above (IM z : Z) : IM < z -> int IM z = Undefined int_overflow.
Proof.
  intros H. unfold int. destruct (Z.leb_spec z IM); [lia|].
  now rewrite andb_false_r.
Qed.

Lemma int_Ok_range (IM z n : Z) :
  int IM z = Ok n -> n = z /\ - IM - 1 <= z <= IM.
Proof.
  unfold int, INT_MIN.
  destruct (Z.leb_spec (- IM - 1) z) as [Hlo|Hlo];
    destruct (Z.leb_spec z IM) as [Hhi|Hhi];
    cbn [andb]; intros E; try discriminate. injection E as <-. lia.
Qed.

Lemma int_cases (IM z : Z) :
  int IM z = Ok z \/ int IM z = Undefined int_overflow.
Proof.
  unfold int. destruct ((INT_MIN IM <=? z) && (z <=? IM)); auto.
Qed.

Lemma is_dec_range (a : ascii) :
  is_dec a = true -> chr "0" <= chr a <= chr "9".
Proof.
  unfold is_dec. rewrite andb_true_iff, !Z.leb_le. tauto.
Qed.

Lemma is_oct_dec (a : ascii) : is_oct a = true -> is_dec a = true.
Proof.
  unfold is_oct, is_dec. rewrite !andb_true_iff, !Z.leb_le.
  change (chr "7") with 55. change (chr "9") with 57. lia.
Qed.

Lemma digit_val_dec (a : ascii) :
  is_dec a = true -> digit_val a = chr a - chr "0" /\ 0 <= digit_val a <= 9.
Proof.
  intros H. unfold digit_val. rewrite H. apply is_dec_range in H.
  change (chr "0") with 48 in *. change (chr "9") with 57 in *. lia.
Qed.

Lemma digit_val_hex (a : ascii) :
  is_hex a = true -> 0 <= digit_val a <= 15.
Proof.
  unfold is_hex, digit_val. destruct (is_dec a) eqn:Hd.
  - intros _. apply is_dec_range in Hd.
    change (chr "0") with 48 in *. change (chr "9") with 57 in *. lia.
  - cbn [orb].
    destruct ((chr "A" <=? chr a) && (chr a <=? chr "F")) eqn:HA.
    + intros _. apply andb_true_iff in HA. rewrite !Z.leb_le in HA.
      change (chr "A") with 65 in *. change (chr "F") with 70 in *. lia.
    + cbn [orb]. rewrite andb_true_iff, !Z.leb_le.
      change (chr "a") with 97. change (chr "f") with 102. lia.
Qed.

Lemma value_cons (base : Z) (a : ascii) (ds : list ascii) (acc : Z) :
  value base (a :: ds) acc = value base ds (acc * base + digit_val a).
Proof. reflexivity. Qed.

(** Digits only add: the number accumulated so far is not above the
    final one. *)
Lemma value_grows (base : Z) (ds : list ascii) :
  1 <= base -> Forall (fun a => 0 <= digit_val a) ds ->
  forall acc, 0 <= acc -> acc <= value base ds acc.
Proof.
  intros Hb Hds. induction Hds as [|a ds Ha _ IH]; intros acc Hacc.
  - cbn. lia.
  - rewrite value_cons. specialize (IH (acc * base + digit_val a)). nia.
Qed.

Lemma forallb_Forall_digit (p : ascii -> bool) (hi : Z) (ds : list ascii) :
  (forall a, p a = true -> 0 <= digit_val a <= hi) ->
  forallb p ds = true -> Forall (fun a => 0 <= digit_val a) ds.
Proof.
  intros Hp H. apply Forall_forall. intros a Ha.
  rewrite forallb_forall in H. specialize (Hp a (H a Ha)). lia.
Qed.

(** ** The three loops *)

Lemma octal_loop (IM : Z) (ds : list ascii) :
  forallb is_oct ds = true ->
  forall rest n sg e,
    stops is_oct rest -> rest <> [] -> 0 <= n -> value 8 ds n <= IM ->
    exists e',
      exec IM (State fsm_state_octal (ds ++ rest) n sg e)
              (Ok (State fsm_exit rest (value 8 ds n) sg e')).
Proof.
  induction ds as [|a ds IH]; intros Hds rest n sg e Hstop Hne Hn Hv.
  - destruct rest as [|b rest]; [contradiction|]. cbn in Hstop.
    eexists. eapply parse_exec_step;
      [discriminate | | apply parse_exec_exit; reflexivity].
    unfold step; cbn [pc cur deref bind num sign err app].
    unfold is_oct in Hstop. now rewrite Hstop.
  - cbn [forallb] in Hds. apply andb_true_iff in Hds as [Ha Hds].
    rewrite value_cons in *.
    destruct (digit_val_dec a (is_oct_dec a Ha)) as [Hdv Hr].
    assert (Hg : n * 8 + digit_val a <= value 8 ds (n * 8 + digit_val a)).
    { apply value_grows; [lia | | lia].
      apply (forallb_Forall_digit is_dec 9);
        [intros b Hb; now apply digit_val_dec|].
      rewrite forallb_forall in *. intros b Hb. now apply is_oct_dec, Hds. }
    destruct (IH Hds rest (n * 8 + digit_val a) sg
                (trace "octal" (chr a) e) Hstop Hne ltac:(lia) Hv) as [e' He'].
    exists e'. eapply parse_exec_step; [discriminate | | exact He'].
    unfold step; cbn [pc cur deref bind num sign err app].
    unfold is_oct in Ha. rewrite Ha.
    rewrite (int_in_range IM (n * 8)) by lia. cbn [bind].
    rewrite int_in_range by lia. cbn [bind tl]. now rewrite Hdv.
Qed.

Lemma decimal_loop (IM : Z) (ds : list ascii) :
  forallb is_dec ds = true ->
  forall rest n sg e,
    stops is_dec rest -> rest <> [] -> 0 <= n -> value 10 ds n <= IM ->
    exists e',
      exec IM (State fsm_state_decimal (ds ++ rest) n sg e)
              (Ok (State fsm_exit rest (value 10 ds n) sg e')).
Proof.
  induction ds as [|a ds IH]; intros Hds rest n sg e Hstop Hne Hn Hv.
  - destruct rest as [|b rest]; [contradiction|]. cbn in Hstop.
    eexists. eapply parse_exec_step;
      [discriminate | | apply parse_exec_exit; reflexivity].
    unfold step; cbn [pc cur deref bind num sign err app].
    unfold is_dec in Hstop. now rewrite Hstop.
  - cbn [forallb] in Hds. apply andb_true_iff in Hds as [Ha Hds].
    rewrite value_cons in *.
    destruct (digit_val_dec a Ha) as [Hdv Hr].
    assert (Hg : n * 10 + digit_val a <= value 10 ds (n * 10 + digit_val a)).
    { apply value_grows; [lia | | lia].
      apply (forallb_Forall_digit is_dec 9);
        [intros b Hb; now apply digit_val_dec | assumption]. }
    destruct (IH Hds rest (n * 10 + digit_val a) sg
                (trace "decimal" (chr a) e) Hstop Hne ltac:(lia) Hv) as [e' He'].
    exists e'. eapply parse_exec_step; [discriminate | | exact He'].
    unfold step; cbn [pc cur deref bind num sign err app].
    unfold is_dec in Ha. rewrite Ha.
    rewrite (int_in_range IM (n * 10)) by lia. cbn [bind].
    rewrite int_in_range by lia. cbn [bind tl]. now rewrite Hdv.
Qed.

(** [hexdigit] as the block computes it: not zero exactly on the hex
    digits, and then what is to be taken off the character. *)
Lemma hexdigit_spec (a : ascii) :
  let hexdigit :=
    if (chr "0" <=? chr a) && (chr a <=? chr "9") then chr "0"
    else if (chr "A" <=? chr a) && (chr a <=? chr "F") then chr "A" - 10
    else if (chr "a" <=? chr a) && (chr a <=? chr "f") then chr "a" - 10
    else 0 in
  negb (hexdigit =? 0) = is_hex a /\
  (is_hex a = true -> chr a - hexdigit = digit_val a).
Proof.
  unfold is_hex, digit_val, is_dec.
  destruct ((chr "0" <=? chr a) && (chr a <=? chr "9")); cbn [orb];
    [split; [reflexivity | intros _; reflexivity]|].
  destruct ((chr "A" <=? chr a) && (chr a <=? chr "F")); cbn [orb];
    [split; [reflexivity | intros _; change (chr "A") with 65; lia]|].
  destruct ((chr "a" <=? chr a) && (chr a <=? chr "f")); cbn [orb];
    [split; [reflexivity | intros _; change (chr "a") with 97; lia]|].
  split; [reflexivity | discriminate].
Qed.

Lemma hex_loop (IM : Z) (ds : list ascii) :
  forallb is_hex ds = true ->
  forall rest n sg e,
    stops is_hex rest -> rest <> [] -> 0 <= n -> value 16 ds n <= IM ->
    exists e',
      exec IM (State fsm_state_hex (ds ++ rest) n sg e)
              (Ok (State fsm_exit rest (value 16 ds n) sg e')).
Proof.
  induction ds as [|a ds IH]; intros Hds rest n sg e Hstop Hne Hn Hv.
  - destruct rest as [|b rest]; [contradiction|]. cbn in Hstop.
    eexists. eapply parse_exec_step;
      [discriminate | | apply parse_exec_exit; reflexivity].
    unfold step; cbn [pc cur deref bind num sign err app].
    destruct (hexdigit_spec b) as [-> _]. now rewrite Hstop.
  - cbn [forallb] in Hds. apply andb_true_iff in Hds as [Ha Hds].
    rewrite value_cons in *.
    pose proof (digit_val_hex a Ha) as Hr.
    assert (Hg : n * 16 + digit_val a <= value 16 ds (n * 16 + digit_val a)).
    { apply value_grows; [lia | | lia].
      apply (forallb_Forall_digit is_hex 15);
        [intros b Hb; now apply digit_val_hex | assumption]. }
    destruct (IH Hds rest (n * 16 + digit_val a) sg
                (trace "hex" (chr a) e) Hstop Hne ltac:(lia) Hv) as [e' He'].
    exists e'. eapply parse_exec_step; [discriminate | | exact He'].
    unfold step; cbn [pc cur deref bind num sign err app].
    destruct (hexdigit_spec a) as [-> Hd]. rewrite Ha, (Hd Ha).
    rewrite (int_in_range IM (n * 16)) by lia. cbn [bind].
    rewrite int_in_range by lia. now cbn [bind tl].
Qed.

(** A decimal number that [int] cannot hold. *)
Lemma decimal_loop_overflow (IM : Z) (ds : list ascii) :
  forallb is_dec ds = true ->
  forall rest n sg e,
    0 <= n <= IM -> IM < value 10 ds n ->
    exec IM (State fsm_state_decimal (ds ++ rest) n sg e)
            (Undefined int_overflow).
Proof.
  induction ds as [|a ds IH]; intros Hds rest n sg e Hn Hv.
  - cbn in Hv. lia.
  - cbn [forallb] in Hds. apply andb_true_iff in Hds as [Ha Hds].
    rewrite value_cons in Hv.
    destruct (digit_val_dec a Ha) as [Hdv Hr].
    destruct (Z.le_gt_cases (n * 10) IM) as [H10 | H10];
      [destruct (Z.le_gt_cases (n * 10 + digit_val a) IM) as [Hd | Hd]|].
    + eapply parse_exec_step;
        [discriminate |
        |apply (IH Hds rest (n * 10 + digit_val a) sg
                  (trace "decimal" (chr a) e)); [lia | exact Hv]].
      unfold step; cbn [pc cur deref bind num sign err app].
      unfold is_dec in Ha. rewrite Ha.
      rewrite (int_in_range IM (n * 10)) by lia. cbn [bind].
      rewrite int_in_range by lia. cbn [bind tl]. now rewrite Hdv.
    + apply parse_exec_fault; [discriminate|].
      unfold step; cbn [pc cur deref bind num sign err app].
      unfold is_dec in Ha. rewrite Ha.
      rewrite (int_in_range IM (n * 10)) by lia. cbn [bind].
      rewrite int_above by lia. reflexivity.
    + apply parse_exec_fault; [discriminate|].
      unfold step; cbn [pc cur deref bind num sign err app].
      unfold is_dec in Ha. rewrite Ha.
      rewrite int_above by lia. reflexivity.
Qed.

(** ** [fsm_state_START] *)

Lemma skipped_tests (a : ascii) :
  skipped a = true ->
  (chr a =? chr "+") = false /\ (chr a =? chr "-") = false /\
  (chr a =? chr "0") = false /\
  ((chr "1" <=? chr a) && (chr a <=? chr "9")) = false /\
  (chr a =? chr "Z") = false /\ (chr a =? chr "z") = false /\
  a <> NUL.
Proof.
  unfold skipped. rewrite !andb_true_iff, !negb_true_iff, !chr_eqb.
  intros (((((H1 & H2) & H3) & H4) & H5) & H6).
  repeat (split; [assumption|]).
  assert (Hz : ~ (chr "0" <= chr a <= chr "9")).
  { intros Hr. unfold is_dec in H3. apply andb_false_iff in H3.
    rewrite !Z.leb_gt in H3. lia. }
  change (chr "0") with 48 in Hz. change (chr "9") with 57 in Hz.
  split; [|split].
  - apply Ascii.eqb_neq. intros ->. apply Hz. vm_compute. split; discriminate.
  - change (chr "1") with 49. change (chr "9") with 57.
    destruct (Z.leb_spec 49 (chr a)); destruct (Z.leb_spec (chr a) 57);
      cbn [andb]; try reflexivity. lia.
  - split; [assumption|]. split; [assumption|]. now apply Ascii.eqb_neq.
Qed.

Lemma chr_NUL (b : ascii) : (chr b =? 0) = Ascii.eqb b NUL.
Proof.
  change 0 with (chr NUL). apply chr_eqb.
Qed.

Lemma start_skip (IM : Z) (a b : ascii) (p : list ascii) n sg e :
  skipped a = true -> b <> NUL ->
  step IM (State fsm_state_START (a :: b :: p) n sg e) =
  Ok (State fsm_state_START (b :: p) n sg e).
Proof.
  intros Ha Hb. apply skipped_tests in Ha as (H1 & H2 & H3 & H4 & H5 & H6 & _).
  unfold step; cbn [pc cur deref bind num sign err tl].
  rewrite H1, H2, H3, H4, H5, H6, chr_NUL.
  apply Ascii.eqb_neq in Hb. now rewrite Hb.
Qed.

Lemma start_skip_end (IM : Z) (a : ascii) (p : list ascii) n sg e :
  skipped a = true ->
  step IM (State fsm_state_START (a :: NUL :: p) n sg e) =
  Ok (State fsm_exit (NUL :: p) n sg e).
Proof.
  intros Ha. apply skipped_tests in Ha as (H1 & H2 & H3 & H4 & H5 & H6 & _).
  unfold step; cbn [pc cur deref bind num sign err tl].
  now rewrite H1, H2, H3, H4, H5, H6.
Qed.

(** [fsm_state_START] steps over what it does not know until something
    else than the terminator that it knows comes up. *)
Lemma start_skips (IM : Z) (junk : list ascii) :
  forallb skipped junk = true ->
  forall b t n sg e r,
    b <> NUL ->
    exec IM (State fsm_state_START (b :: t) n sg e) r ->
    exec IM (State fsm_state_START (junk ++ b :: t) n sg e) r.
Proof.
  induction junk as [|a junk IH]; intros Hj b t n sg e r Hb He; [exact He|].
  cbn [forallb] in Hj. apply andb_true_iff in Hj as [Ha Hj].
  specialize (IH Hj b t n sg e r Hb He). cbn [app].
  destruct junk as [|a' junk].
  - eapply parse_exec_step; [discriminate | | exact IH].
    now apply start_skip.
  - eapply parse_exec_step; [discriminate | | exact IH].
    cbn [app]. apply start_skip; [assumption|].
    cbn [forallb] in Hj. apply andb_true_iff in Hj as [Ha' _].
    now apply skipped_tests in Ha'.
Qed.

Lemma is_dec_not_sign (d : ascii) :
  is_dec d = true ->
  (chr d =? chr "+") = false /\ (chr d =? chr "-") = false /\ d <> NUL.
Proof.
  intros H. apply is_dec_range in H.
  change (chr "0") with 48 in H. change (chr "9") with 57 in H.
  repeat split; try (apply Z.eqb_neq; vm_compute (chr "+"); vm_compute (chr "-"); lia).
  intros ->. vm_compute in H. destruct H as [H _]. now apply H.
Qed.

Lemma start_decimal (IM : Z) (p ds t : list ascii) n e :
  decimal_start p ds -> forallb is_dec ds = true ->
  step IM (State fsm_state_START (p ++ ds ++ t) n 1 e) =
  Ok (State fsm_state_decimal (ds ++ t) n (sign_of p) e).
Proof.
  intros [[-> (d & ds' & -> & Hd)] | [-> | ->]] Hds; try reflexivity.
  cbn [forallb] in Hds. apply andb_true_iff in Hds as [Hdd _].
  destruct (is_dec_not_sign d Hdd) as (H1 & H2 & _).
  unfold step; cbn [pc cur deref bind num sign err tl app sign_of].
  rewrite H1, H2, chr_eqb. apply Ascii.eqb_neq in Hd. rewrite Hd.
  apply is_dec_range in Hdd.
  assert (Hne : chr d <> chr "0") by (intros E; apply chr_inj in E; subst d; now rewrite Ascii.eqb_refl in Hd).
  change (chr "0") with 48 in *. change (chr "9") with 57 in *.
  change (chr "1") with 49.
  destruct (Z.leb_spec 49 (chr d)); [|lia].
  destruct (Z.leb_spec (chr d) 57); [reflexivity | lia].
Qed.

Lemma decimal_start_head (p ds t : list ascii) :
  decimal_start p ds -> forallb is_dec ds = true ->
  exists b l, p ++ ds ++ t = b :: l /\ b <> NUL.
Proof.
  intros [[-> (d & ds' & -> & Hd)] | [-> | ->]] Hds.
  - exists d, (ds' ++ t). split; [reflexivity|].
    cbn [forallb] in Hds. apply andb_true_iff in Hds as [Hdd _].
    now apply is_dec_not_sign in Hdd.
  - exists "+"%char, (ds ++ t). split; [reflexivity | discriminate].
  - exists "-"%char, (ds ++ t). split; [reflexivity | discriminate].
Qed.

Lemma stops_app_NUL (p : ascii -> bool) (rest : list ascii) :
  p NUL = false -> stops p rest -> stops p (rest ++ [NUL]) /\ rest ++ [NUL] <> [].
Proof.
  intros Hp H. destruct rest; cbn; split; try assumption; discriminate.
Qed.

(** ** From the machine to [main] *)

Lemma main_returns (IM : Z) (argv : list (list ascii)) (s : state) :
  exec IM (start (arg_in argv)) (Ok s) ->
  - IM <= sign s * num s <= IM ->
  main IM argv =
  Some (Returns 0 (sign s * num s)
          (err s ++ last_line (arg_in argv) (sign s * num s))).
Proof.
  intros He Hr. unfold main. rewrite (parse_run_bound IM _ _ He).
  unfold finish. rewrite int_in_range by lia. reflexivity.
Qed.

Lemma main_undefined (IM : Z) (argv : list (list ascii)) (f : fault) :
  exec IM (start (arg_in argv)) (Undefined f) -> main IM argv = Some (Undef f).
Proof.
  intros He. unfold main. now rewrite (parse_run_bound IM _ _ He).
Qed.

Lemma sign_of_decimal_start (p ds : list ascii) :
  decimal_start p ds -> sign_of p = 1 \/ sign_of p = -1.
Proof.
  intros [[-> _] | [-> | ->]]; cbn; auto.
Qed.

Lemma value_nonneg (base : Z) (p : ascii -> bool) (hi : Z) (ds : list ascii) :
  1 <= base -> (forall a, p a = true -> 0 <= digit_val a <= hi) ->
  forallb p ds = true -> 0 <= value base ds 0.
Proof.
  intros Hb Hp Hds. apply value_grows; [assumption | | lia].
  now apply (forallb_Forall_digit p hi).
Qed.

(** ** What [main] computes *)

Section Parsed.

Variable INT_MAX : Z.
Variable argv : list (list ascii).

(** X12: A decimal number, with a sign or beginning with a digit other than
    zero, behind characters that [fsm_state_START] steps over and in front
    of anything that is not a digit: [main] returns 0 with [num] the
    number the digits stand for, negated behind a minus sign, provided it
    is an [int], and the last line written shows it. *)
Theorem decimal_parsed (junk p ds rest : list ascii)
  (Harg : arg_in argv = junk ++ p ++ ds ++ rest)
  (Hjunk : forallb skipped junk = true)
  (Hstart : decimal_start p ds)
  (Hds : forallb is_dec ds = true)
  (Hrest : stops is_dec rest)
  (Hint : value 10 ds 0 <= INT_MAX) :
  exists e,
    main INT_MAX argv =
    Some (Returns 0 (sign_of p * value 10 ds 0)
            (e ++ last_line (arg_in argv) (sign_of p * value 10 ds 0))).
Proof.
  pose proof (value_nonneg 10 is_dec 9 ds ltac:(lia)
                (fun a H => proj2 (digit_val_dec a H)) Hds) as Hv.
  destruct (stops_app_NUL is_dec rest eq_refl Hrest) as [Hstop Hne].
  destruct (decimal_loop INT_MAX ds Hds (rest ++ [NUL]) 0 (sign_of p) []
              Hstop Hne ltac:(lia) Hint) as [e He].
  exists e.
  assert (Hx : exec INT_MAX (start (arg_in argv))
                 (Ok (State fsm_exit (rest ++ [NUL]) (value 10 ds 0)
                        (sign_of p) e))).
  { unfold start. rewrite Harg, <- !app_assoc.
    destruct (decimal_start_head p ds (rest ++ [NUL]) Hstart Hds)
      as (b & l & Hbl & Hb).
    rewrite Hbl. apply start_skips; [assumption | assumption|].
    rewrite <- Hbl. eapply parse_exec_step; [discriminate | | exact He].
    now apply start_decimal. }
  apply (main_returns INT_MAX argv _ Hx). cbn [sign num].
  destruct (sign_of_decimal_start p ds Hstart) as [-> | ->]; lia.
Qed.

(** X13: The same number when [int] cannot hold it: the accumulation overflows,
    which C leaves undefined. *)
Theorem decimal_overflow (junk p ds rest : list ascii)
  (Harg : arg_in argv = junk ++ p ++ ds ++ rest)
  (Hjunk : forallb skipped junk = true)
  (Hstart : decimal_start p ds)
  (Hds : forallb is_dec ds = true)
  (Hmax : 0 <= INT_MAX)
  (Hint : INT_MAX < value 10 ds 0) :
  main INT_MAX argv = Some (Undef int_overflow).
Proof.
  apply main_undefined. unfold start. rewrite Harg, <- !app_assoc.
  destruct (decimal_start_head p ds (rest ++ [NUL]) Hstart Hds)
    as (b & l & Hbl & Hb).
  rewrite Hbl. apply start_skips; [assumption | assumption|].
  rewrite <- Hbl. eapply parse_exec_step;
    [discriminate | now apply start_decimal|].
  apply decimal_loop_overflow; [assumption | lia | assumption].
Qed.

Lemma start_zero_octal (b : ascii) (t : list ascii) n sg e :
  is_x b = false ->
  step INT_MAX (State fsm_state_START ("0"%char :: b :: t) n sg e) =
  Ok (State fsm_state_octal (b :: t) n sg e).
Proof.
  intros Hb. unfold step; cbn [pc cur deref bind num sign err tl].
  rewrite !chr_eqb. fold (is_x b). now rewrite Hb.
Qed.

Lemma start_zero_hex (x : ascii) (t : list ascii) n sg e :
  is_x x = true ->
  step INT_MAX (State fsm_state_START ("0"%char :: x :: t) n sg e) =
  Ok (State fsm_state_hex t n sg e).
Proof.
  intros Hx. unfold step; cbn [pc cur deref bind num sign err tl].
  rewrite !chr_eqb. fold (is_x x). now rewrite Hx.
Qed.

(** X14: A zero followed by octal digits, behind characters that are stepped
    over: [num] is the number the digits stand for in base 8.  Behind a
    lone zero no x may follow, which would announce a hexadecimal number. *)
Theorem octal_parsed (junk ds rest : list ascii)
  (Harg : arg_in argv = junk ++ "0"%char :: ds ++ rest)
  (Hjunk : forallb skipped junk = true)
  (Hds : forallb is_oct ds = true)
  (Hrest : stops is_oct rest)
  (Hx : ds = [] -> stops is_x rest)
  (Hint : value 8 ds 0 <= INT_MAX) :
  exists e,
    main INT_MAX argv =
    Some (Returns 0 (value 8 ds 0)
            (e ++ last_line (arg_in argv) (value 8 ds 0))).
Proof.
  assert (Hv : 0 <= value 8 ds 0).
  { apply (value_nonneg 8 is_oct 9); [lia | | assumption].
    intros a Ha. now apply digit_val_dec, is_oct_dec. }
  destruct (stops_app_NUL is_oct rest eq_refl Hrest) as [Hstop Hne].
  destruct (octal_loop INT_MAX ds Hds (rest ++ [NUL]) 0 1 []
              Hstop Hne ltac:(lia) Hint) as [e He].
  exists e.
  assert (Hex : exec INT_MAX (start (arg_in argv))
                  (Ok (State fsm_exit (rest ++ [NUL]) (value 8 ds 0) 1 e))).
  { unfold start. rewrite Harg, <- !app_assoc. cbn [app].
    apply start_skips; [assumption | discriminate|].
    eapply parse_exec_step; [discriminate | | exact He].
    rewrite <- app_assoc.
    destruct ds as [|a ds].
    - specialize (Hx eq_refl). destruct rest as [|b rest]; cbn [app].
      + now apply start_zero_octal.
      + apply start_zero_octal. exact Hx.
    - cbn [app]. apply start_zero_octal.
      cbn [forallb] in Hds. apply andb_true_iff in Hds as [Ha _].
      apply is_oct_dec, is_dec_range in Ha.
      unfold is_x. apply orb_false_iff.
      split; apply Ascii.eqb_neq; intros ->; vm_compute in Ha;
        destruct Ha as [_ Ha]; now apply Ha. }
  rewrite (main_returns INT_MAX argv _ Hex) by (cbn [sign num]; lia).
  cbn [sign num err]. now rewrite !Z.mul_1_l.
Qed.

(** X15: A zero and an x of either case followed by hex digits of either
    case: [num] is the number the digits stand for in base 16. *)
Theorem hex_parsed (junk ds rest : list ascii) (x : ascii)
  (Harg : arg_in argv = junk ++ "0"%char :: x :: ds ++ rest)
  (Hjunk : forallb skipped junk = true)
  (Hisx : is_x x = true)
  (Hds : forallb is_hex ds = true)
  (Hrest : stops is_hex rest)
  (Hint : value 16 ds 0 <= INT_MAX) :
  exists e,
    main INT_MAX argv =
    Some (Returns 0 (value 16 ds 0)
            (e ++ last_line (arg_in argv) (value 16 ds 0))).
Proof.
  assert (Hv : 0 <= value 16 ds 0).
  { apply (value_nonneg 16 is_hex 15); [lia | | assumption].
    intros a Ha. now apply digit_val_hex. }
  destruct (stops_app_NUL is_hex rest eq_refl Hrest) as [Hstop Hne].
  destruct (hex_loop INT_MAX ds Hds (rest ++ [NUL]) 0 1 []
              Hstop Hne ltac:(lia) Hint) as [e He].
  exists e.
  assert (Hex : exec INT_MAX (start (arg_in argv))
                  (Ok (State fsm_exit (rest ++ [NUL]) (value 16 ds 0) 1 e))).
  { unfold start. rewrite Harg, <- !app_assoc. cbn [app].
    apply start_skips; [assumption | discriminate|].
    eapply parse_exec_step; [discriminate | | exact He].
    rewrite <- app_assoc. now apply start_zero_hex. }
  rewrite (main_returns INT_MAX argv _ Hex) by (cbn [sign num]; lia).
  cbn [sign num err]. now rewrite !Z.mul_1_l.
Qed.


(** X16: An argument in which [fsm_state_START] finds no number: characters
    that it steps over, up to the end or up to a Z of either case.  [num]
    stays 0 and the last line is all that is written. *)
Theorem no_number_zero (junk tail : list ascii)
  (Harg : arg_in argv = junk ++ tail)
  (Hjunk : forallb skipped junk = true)
  (Htail : (tail = [] /\ junk <> []) \/
           (exists a t, tail = a :: t /\ (a = "Z"%char \/ a = "z"%char)))
  (Hmax : 0 <= INT_MAX) :
  main INT_MAX argv = Some (Returns 0 0 (last_line (arg_in argv) 0)).
Proof.
  assert (Hex : exists p, exec INT_MAX (start (arg_in argv))
                            (Ok (State fsm_exit p 0 1 []))).
  { unfold start. rewrite Harg, <- app_assoc.
    destruct Htail as [[-> Hne] | (a & t & -> & Ha)].
    - destruct (exists_last Hne) as (j & a & ->).
      rewrite forallb_app in Hjunk. apply andb_true_iff in Hjunk as [Hj Ha].
      cbn [forallb] in Ha. rewrite andb_true_r in Ha.
      exists [NUL]. rewrite <- app_assoc. cbn [app].
      apply start_skips; [assumption | now apply skipped_tests in Ha|].
      eapply parse_exec_step;
        [discriminate | now apply start_skip_end
        |now apply parse_exec_exit].
    - exists (a :: t ++ [NUL]). cbn [app].
      apply start_skips; [assumption | destruct Ha as [-> | ->]; discriminate|].
      eapply parse_exec_step;
        [discriminate | | now apply parse_exec_exit].
      destruct Ha as [-> | ->]; reflexivity. }
  destruct Hex as [p Hex].
  rewrite (main_returns INT_MAX argv _ Hex) by (cbn [sign num]; lia).
  reflexivity.
Qed.

(** X17: Without an argument, or with an empty one, [fsm_state_START] moves
    [cur] behind the terminator and reads there. *)
Theorem missing_argument_out_of_bounds
  (Harg : arg_in argv = []) :
  main INT_MAX argv = Some (Undef out_of_bounds).
Proof.
  apply main_undefined. rewrite Harg.
  apply parse_exec_fault; [discriminate | reflexivity].
Qed.

Lemma in_string_tail (a : ascii) (l l0 : list ascii) :
  a :: l = l0 ++ [NUL] -> a <> NUL -> exists l1, l = l1 ++ [NUL].
Proof.
  intros E Ha. destruct l0 as [|b l0]; cbn [app] in E.
  - injection E as -> _. contradiction.
  - injection E as _ ->. now exists l0.
Qed.

Lemma chr_nonzero (a : ascii) : (chr a =? 0) = false -> a <> NUL.
Proof.
  rewrite chr_NUL. apply Ascii.eqb_neq.
Qed.

Lemma range_not_NUL (lo hi : ascii) (a : ascii) :
  0 < chr lo -> (chr lo <=? chr a) && (chr a <=? chr hi) = true -> a <> NUL.
Proof.
  intros Hlo H Ha. subst a. apply andb_true_iff in H as [H _].
  apply Z.leb_le in H. change (chr NUL) with 0 in H. lia.
Qed.

(** While [cur] points into the string, no block reads behind the
    terminator, and [cur] points into the string after the block. *)
Lemma in_string_step (s : state) :
  in_string s -> pc s <> fsm_exit ->
  match step INT_MAX s with
  | Ok s' => in_string s'
  | Undefined f => f = int_overflow
  end.
Proof.
  destruct s as [l p n sg e]. unfold in_string; cbn [pc cur].
  intros [[l0 Hl0] Hst] Hpc.
  destruct l; try contradiction; unfold step; cbn [pc cur num sign err].
  - (* START *)
    destruct (Hst eq_refl) as (a & t & -> & Ha). clear Hst.
    destruct (in_string_tail a t l0 Hl0 Ha) as [l1 ->].
    cbn [deref bind tl].
    destruct (chr a =? chr "+");
      [cbn [pc cur]; split; [now exists l1 | discriminate]|].
    destruct (chr a =? chr "-");
      [cbn [pc cur]; split; [now exists l1 | discriminate]|].
    destruct l1 as [|b l1]; cbn [app deref bind tl].
    + change (chr NUL =? chr "x") with false.
      change (chr NUL =? chr "X") with false.
      change (chr NUL =? 0) with true. cbn [orb].
      repeat match goal with
             | |- context [if ?c then _ else _] => destruct c
             end; cbn [pc cur]; split;
        first [now exists [] | now exists [a] | discriminate].
    + destruct (chr a =? chr "0").
      * destruct ((chr b =? chr "x") || (chr b =? chr "X")) eqn:Hb;
          cbn [pc cur]; (split; [|discriminate]).
        -- destruct l1 as [|b' l1]; [now exists []|]. now exists (b' :: l1).
        -- now exists (b :: l1).
      * repeat match goal with
               | |- context [if (_ <=? _) && _ then _ else _] =>
                   destruct ((chr "1" <=? chr a) && (chr a <=? chr "9"))
               | |- context [if chr a =? ?k then _ else _] =>
                   destruct (chr a =? k)
               end; cbn [pc cur];
          try (split; [now exists (a :: b :: l1) | discriminate]).
        destruct (chr b =? 0) eqn:Hb; cbn [pc cur];
          (split; [now exists (b :: l1)|]); [discriminate|].
        intros _. exists b, (l1 ++ [NUL]). split; [reflexivity|].
        now apply chr_nonzero.
  - (* octal *)
    subst p. destruct l0 as [|a l0]; cbn [app deref bind tl].
    + change ((chr "0" <=? chr NUL) && (chr NUL <=? chr "7")) with false.
      cbn [pc cur]. split; [now exists [] | discriminate].
    + destruct ((chr "0" <=? chr a) && (chr a <=? chr "7")).
      * destruct (int_cases INT_MAX (n * 8)) as [-> | ->]; cbn [bind];
          try reflexivity.
        destruct (int_cases INT_MAX (n * 8 + (chr a - chr "0"))) as [-> | ->];
          cbn [bind]; try reflexivity.
        cbn [pc cur]. split; [now exists l0 | discriminate].
      * cbn [pc cur]. split; [now exists (a :: l0) | discriminate].
  - (* hex *)
    subst p. destruct l0 as [|a l0]; cbn [app deref bind tl].
    + cbn. split; [now exists [] | discriminate].
    + destruct (negb (_ =? 0)).
      * destruct (int_cases INT_MAX (n * 16)) as [-> | ->]; cbn [bind];
          try reflexivity.
        match goal with |- context [int INT_MAX ?z] =>
          destruct (int_cases INT_MAX z) as [-> | ->] end;
          cbn [bind]; try reflexivity.
        cbn [pc cur]. split; [now exists l0 | discriminate].
      * cbn [pc cur]. split; [now exists (a :: l0) | discriminate].
  - (* decimal *)
    subst p. destruct l0 as [|a l0]; cbn [app deref bind tl].
    + change ((chr "0" <=? chr NUL) && (chr NUL <=? chr "9")) with false.
      cbn [pc cur]. split; [now exists [] | discriminate].
    + destruct ((chr "0" <=? chr a) && (chr a <=? chr "9")).
      * destruct (int_cases INT_MAX (n * 10)) as [-> | ->]; cbn [bind];
          try reflexivity.
        destruct (int_cases INT_MAX (n * 10 + (chr a - chr "0"))) as [-> | ->];
          cbn [bind]; try reflexivity.
        cbn [pc cur]. split; [now exists l0 | discriminate].
      * cbn [pc cur]. split; [now exists (a :: l0) | discriminate].
Qed.

(** X18: With an argument that is not empty, [main] never reads outside the
    string: it returns, or the accumulation overflows. *)
Theorem nonempty_argument_in_bounds (a : ascii) (r : list ascii)
  (Harg : arg_in argv = a :: r) (Ha : a <> NUL) :
  exists o, main INT_MAX argv = Some o /\ o <> Undef out_of_bounds.
Proof.
  unfold main.
  destruct (parse_run_total INT_MAX (blocks_bound (arg_in argv))
              (start (arg_in argv))) as [res Hres].
  { unfold measure, start, blocks_bound. cbn [pc cur].
    rewrite length_app. cbn. lia. }
  rewrite Hres.
  assert (Hinit : in_string (start (arg_in argv))).
  { rewrite Harg. unfold start, in_string; cbn [pc cur]. split.
    - now exists (a :: r).
    - intros _. now exists a, (r ++ [NUL]). }
  assert (Hkeep : forall s s', in_string s -> pc s <> fsm_exit ->
                    step INT_MAX s = Ok s' -> in_string s').
  { intros s s' Hs Hpc Hstep. pose proof (in_string_step s Hs Hpc) as H.
    now rewrite Hstep in H. }
  pose proof (parse_run_invariant INT_MAX in_string Hkeep _ _ _ Hinit Hres)
    as Hinv.
  destruct res as [s|f].
  - unfold finish. destruct (int_cases INT_MAX (sign s * num s)) as [-> | ->];
      cbn [bind]; eexists; (split; [reflexivity | congruence]).
  - destruct Hinv as (s0 & Hs0 & Hpc & Hstep).
    pose proof (in_string_step s0 Hs0 Hpc) as H. rewrite Hstep in H. subst f.
    eexists; split; [reflexivity | congruence].
Qed.

(** Every block leaves [num] a number that is not negative and that [int]
    holds, and [sign] one or minus one. *)
Lemma num_ok_step (s s' : state) :
  num_ok INT_MAX s -> step INT_MAX s = Ok s' -> num_ok INT_MAX s'.
Proof.
  destruct s as [l p n sg e]. unfold num_ok; cbn [num sign].
  intros [Hn Hsg]. unfold step; cbn [pc cur num sign err].
  destruct l;
    [| | | |intros H; injection H as <-; cbn [num sign]; now split];
    (destruct p as [|a p]; cbn [deref bind tl]; [discriminate|]).
  - repeat match goal with
           | |- context [if ?b then _ else _] => destruct b
           | |- context [deref ?q] =>
               destruct q; cbn [deref bind tl]; try discriminate
           end; intros H; injection H as <-; cbn [num sign]; auto.
  - destruct ((chr "0" <=? chr a) && (chr a <=? chr "7")) eqn:Ha.
    + apply andb_true_iff in Ha as [Ha _]. apply Z.leb_le in Ha.
      destruct (int INT_MAX (n * 8)) as [n8|] eqn:E1; cbn [bind];
        [|discriminate].
      destruct (int INT_MAX (n8 + (chr a - chr "0"))) as [n'|] eqn:E2;
        cbn [bind]; [|discriminate].
      apply int_Ok_range in E1, E2. intros H; injection H as <-.
      cbn [num sign]. split; [lia | assumption].
    + intros H; injection H as <-. cbn [num sign]. auto.
  - destruct (hexdigit_spec a) as [Hh Hv]. cbv zeta in Hh, Hv.
    match goal with |- context [negb (?h =? 0)] => set (hd := h) in * end.
    rewrite Hh. destruct (is_hex a) eqn:Ha.
    + specialize (Hv eq_refl). pose proof (digit_val_hex a Ha) as Hr.
      destruct (int INT_MAX (n * 16)) as [n16|] eqn:E1; cbn [bind];
        [|discriminate].
      destruct (int INT_MAX (n16 + (chr a - hd))) as [n'|] eqn:E2;
        cbn [bind]; [|discriminate].
      apply int_Ok_range in E1, E2. intros H; injection H as <-.
      cbn [num sign]. split; [lia | assumption].
    + intros H; injection H as <-. cbn [num sign]. auto.
  - destruct ((chr "0" <=? chr a) && (chr a <=? chr "9")) eqn:Ha.
    + apply andb_true_iff in Ha as [Ha _]. apply Z.leb_le in Ha.
      destruct (int INT_MAX (n * 10)) as [n10|] eqn:E1; cbn [bind];
        [|discriminate].
      destruct (int INT_MAX (n10 + (chr a - chr "0"))) as [n'|] eqn:E2;
        cbn [bind]; [|discriminate].
      apply int_Ok_range in E1, E2. intros H; injection H as <-.
      cbn [num sign]. split; [lia | assumption].
    + intros H; injection H as <-. cbn [num sign]. auto.
Qed.

(** X19: [main] always ends.  When it returns, it returns 0, [num] lies
    between minus [INT_MAX] and [INT_MAX] (the multiplication by [sign]
    cannot overflow, and the smallest [int] is never the result), and the
    last line written is the one that shows the argument and [num]. *)
Theorem main_ends_in_range (Hmax : 0 <= INT_MAX) :
  exists o,
    main INT_MAX argv = Some o /\
    match o with
    | Returns status n stderr =>
        status = 0 /\ - INT_MAX <= n <= INT_MAX /\
        exists e, stderr = e ++ last_line (arg_in argv) n
    | Undef _ => True
    end.
Proof.
  unfold main.
  destruct (parse_run_total INT_MAX (blocks_bound (arg_in argv))
              (start (arg_in argv))) as [res Hres].
  { unfold measure, start, blocks_bound. cbn [pc cur].
    rewrite length_app. cbn. lia. }
  rewrite Hres.
  assert (Hinit : num_ok INT_MAX (start (arg_in argv))).
  { unfold num_ok, start; cbn [num sign]. split; [lia | auto]. }
  pose proof (parse_run_invariant INT_MAX (num_ok INT_MAX)
                (fun s s' Hs _ Hstep => num_ok_step s s' Hs Hstep)
                _ _ _ Hinit Hres) as Hinv.
  destruct res as [s|f]; [|now eexists].
  destruct Hinv as [[Hn Hsg] _]. unfold finish.
  rewrite int_in_range by (destruct Hsg as [-> | ->]; lia).
  cbn [bind]. eexists. split; [reflexivity|].
  split; [reflexivity|].
  split; [destruct Hsg as [-> | ->]; lia|].
  exists (err s). reflexivity.
Qed.

End Parsed.

(** ** Instances *)

Lemma decimal_parsed_witness :
  exists e,
    main INT_MAX_32 (argv_of "n=-2147483647;") =
    Some (Returns 0 (-2147483647)
            (e ++ last_line (list_ascii_of_string "n=-2147483647;")
                    (-2147483647))).
Proof.
  refine (decimal_parsed INT_MAX_32 (argv_of "n=-2147483647;")
            (list_ascii_of_string "n=") (list_ascii_of_string "-")
            (list_ascii_of_string "2147483647") (list_ascii_of_string ";")
            _ _ _ _ _ _).
  - reflexivity.
  - vm_compute. reflexivity.
  - right. right. reflexivity.
  - vm_compute. reflexivity.
  - vm_compute. reflexivity.
  - vm_compute. discriminate.
Defined.

Lemma decimal_overflow_witness :
  main INT_MAX_32 (argv_of "2147483648") = Some (Undef int_overflow).
Proof.
  refine (decimal_overflow INT_MAX_32 (argv_of "2147483648")
            [] [] (list_ascii_of_string "2147483648") [] _ _ _ _ _ _).
  - reflexivity.
  - reflexivity.
  - left. split; [reflexivity|].
    exists "2"%char, (list_ascii_of_string "147483648").
    split; [reflexivity | discriminate].
  - vm_compute. reflexivity.
  - vm_compute. discriminate.
  - vm_compute. reflexivity.
Defined.

Lemma octal_parsed_witness :
  exists e,
    main INT_MAX_32 (argv_of "mode 0755,") =
    Some (Returns 0 493
            (e ++ last_line (list_ascii_of_string "mode 0755,") 493)).
Proof.
  refine (octal_parsed INT_MAX_32 (argv_of "mode 0755,")
            (list_ascii_of_string "mode ") (list_ascii_of_string "755")
            (list_ascii_of_string ",") _ _ _ _ _ _).
  - reflexivity.
  - vm_compute. reflexivity.
  - vm_compute. reflexivity.
  - vm_compute. reflexivity.
  - discriminate.
  - vm_compute. discriminate.
Defined.

Lemma hex_parsed_witness :
  exists e,
    main INT_MAX_32 (argv_of "0Xc0DE!") =
    Some (Returns 0 49374
            (e ++ last_line (list_ascii_of_string "0Xc0DE!") 49374)).
Proof.
  refine (hex_parsed INT_MAX_32 (argv_of "0Xc0DE!")
            [] (list_ascii_of_string "c0DE") (list_ascii_of_string "!")
            "X"%char _ _ _ _ _ _).
  - reflexivity.
  - reflexivity.
  - reflexivity.
  - vm_compute. reflexivity.
  - vm_compute. reflexivity.
  - vm_compute. discriminate.
Defined.

Lemma no_number_zero_witness :
  main INT_MAX_32 (argv_of "abZ12") =
  Some (Returns 0 0 (last_line (list_ascii_of_string "abZ12") 0)).
Proof.
  refine (no_number_zero INT_MAX_32 (argv_of "abZ12")
            (list_ascii_of_string "ab") (list_ascii_of_string "Z12") _ _ _ _).
  - reflexivity.
  - vm_compute. reflexivity.
  - right. exists "Z"%char, (list_ascii_of_string "12"). auto.
  - vm_compute. discriminate.
Defined.

Lemma missing_argument_out_of_bounds_witness :
  main INT_MAX_32 [list_ascii_of_string "numbers"] = Some (Undef out_of_bounds).
Proof.
  exact (missing_argument_out_of_bounds INT_MAX_32
           [list_ascii_of_string "numbers"] eq_refl).
Defined.

Lemma nonempty_argument_in_bounds_witness :
  exists o, main INT_MAX_32 (argv_of "x") = Some o /\ o <> Undef out_of_bounds.
Proof.
  refine (nonempty_argument_in_bounds INT_MAX_32 (argv_of "x") "x"%char [] _ _).
  - reflexivity.
  - discriminate.
Defined.

Lemma main_ends_in_range_witness :
  exists o,
    main INT_MAX_32 (argv_of "-0") = Some o /\
    match o with
    | Returns status n stderr =>
        status = 0 /\ - INT_MAX_32 <= n <= INT_MAX_32 /\
        exists e, stderr = e ++ last_line (arg_in (argv_of "-0")) n
    | Undef _ => True
    end.
Proof.
  refine (main_ends_in_range INT_MAX_32 (argv_of "-0") _).
  vm_compute. discriminate.
Defined.

End NumbersFacts.
